(** * Verification of the kite streaming core

    Shallow embedding of [kitews.py] (tick cache, subscription
    reconciliation, start/stop of the KiteTicker connection) and of the
    strike-window part of [plot_option_chain] in [kite1.py].

    Conventions of the embedding:
    - Python ints are [Z]; prices and strikes (Python floats) are exact
      rationals [Q], so [/] and [round] are the real-number operations
      (round-half-to-even, as Python's built-in [round]).  The choice of the
      ATM strike, where the rounding of the double operations decides the
      result, is modelled a second time on IEEE 754 doubles (module
      [PyFloat]).
    - The module-level globals of [kitews.py] are the fields of one record
      that every function receives and returns.
    - [live_quotes] is a name bound to a dict object.  Objects live in a
      store indexed by references, because [get_all_live_quotes] hands the
      object itself to its caller while [on_ticks] keeps mutating it and
      [clear_live_quotes] rebinds the name to a new object.
    - [KiteTicker] belongs to the kiteconnect library; it is an interface
      here (class [Ticker]) and every call made on it is logged.
    - Logging and printing are not modelled. *)

From Stdlib Require Import Ascii String QArith Qround Qabs Sorted Floats Lqa.
From stdpp Require Import gmap strings list fin_maps.
From stdpp Require Import sorting.

Set Warnings "-clear-no-such-hyp".
Local Open Scope Z_scope.

(** ** Python values that may be missing or None *)

(** A dict field as [d.get(key)] sees it: the key may be missing, bound to
    [None], or bound to a value. *)
Inductive field (A : Type) : Type :=
  | Missing
  | IsNone
  | Value (a : A).
Arguments Missing {A}.
Arguments IsNone {A}.
Arguments Value {A} a.

(** [d.get(key)]: a missing key and a key bound to [None] both give [None]. *)
Definition dict_get {A} (f : field A) : option A :=
  match f with
  | Value a => Some a
  | _ => None
  end.

(** Truth value of an optional int: [None] and [0] are false. *)
Definition truthy_int (o : option Z) : bool :=
  match o with
  | Some z => negb (z =? 0)
  | None => false
  end.

(** Truth value of an optional string: [None] and the empty string are false. *)
Definition truthy_str (o : option string) : bool :=
  match o with
  | Some EmptyString | None => false
  | Some _ => true
  end.

Module KiteWS.

(** ** Ticks and cached quotes *)

(** A tick as delivered by the ticker: a dict of which [on_ticks] reads six
    keys.  [ohlc] and [depth] are nested dicts the module never looks into. *)
Record tick := {
  t_instrument_token : field Z;
  t_last_price : field Q;
  t_ohlc : field N;
  t_volume_traded : field Z;
  t_oi : field Z;
  t_depth : field N
}.

(** The dict [on_ticks] stores per instrument. *)
Record quote := {
  instrument_token : Z;
  last_price : option Q;
  ohlc : option N;
  volume : option Z;
  oi : option Z;
  depth : option N;
  timestamp : Q
}.

(** ** The ticker interface *)

(** A call either returns or raises; the ticker object survives both. *)
Inductive result (T : Type) : Type :=
  | Ok (t : T)
  | Raise (t : T).
Arguments Ok {T} t.
Arguments Raise {T} t.

Definition after {T} (r : result T) : T :=
  match r with Ok t | Raise t => t end.

(** What [kws.subscriptions] evaluates to, as far as [subscribe_to_tokens]
    distinguishes: no such attribute, a dict (token -> mode), a list, a set,
    or an object of another type (with its truth value). *)
Inductive attr : Type :=
  | AttrMissing
  | AttrDict (d : gmap Z string)
  | AttrList (l : list Z)
  | AttrSet (s : gset Z)
  | AttrOther (truth : bool).

(** The methods of [KiteTicker] the module calls.  The constructor is taken
    to return; the callbacks assigned to a new instance are the functions of
    this module and are not part of the ticker's state. *)
Class Ticker (T : Type) := {
  KiteTicker : option string → option string → T;
  is_connected : T → bool;
  subscriptions : T → attr;
  subscribe : T → list Z → result T;
  unsubscribe : T → list Z → result T;
  set_mode_full : T → list Z → result T;
  stop : T → result T
}.

(** Calls made on the ticker, in program order.  [Spawn] is the start of the
    daemon thread that runs [kws.connect()]. *)
Inductive call : Type :=
  | CNew (api_key access_token : option string)
  | CStop
  | CUnsubscribe (tokens : list Z)
  | CSubscribe (tokens : list Z)
  | CSetModeFull (tokens : list Z)
  | Spawn.

(** ** Module state *)

Section WithTicker.
Context {T : Type} `{Ticker T}.

Record state := {
  store : gmap positive (gmap Z quote);
  live_quotes : positive;
  kws : option T;
  access_token_ws : option string;
  api_key_ws : option string;
  always_subscribed_tokens : gset Z
}.

(** The dict a reference denotes (an unallocated reference reads as empty;
    references handed out by this module are always allocated). *)
Definition deref (s : state) (r : positive) : gmap Z quote :=
  default ∅ (store s !! r).

Definition cache (s : state) : gmap Z quote := deref s (live_quotes s).

Definition set_kws (s : state) (k : option T) : state :=
  {| store := store s; live_quotes := live_quotes s; kws := k;
     access_token_ws := access_token_ws s; api_key_ws := api_key_ws s;
     always_subscribed_tokens := always_subscribed_tokens s |}.

(** *** [on_ticks] *)

Definition make_quote (tok : Z) (t : tick) (now : Q) : quote :=
  {| instrument_token := tok;
     last_price := dict_get (t_last_price t);
     ohlc := dict_get (t_ohlc t);
     volume := dict_get (t_volume_traded t);
     oi := dict_get (t_oi t);
     depth := dict_get (t_depth t);
     timestamp := now |}.

(** One iteration of the loop; [now] is what [time.time()] returns in it. *)
Definition on_tick (d : gmap Z quote) (tn : tick * Q) : gmap Z quote :=
  let instrument_token := dict_get (t_instrument_token tn.1) in
  if truthy_int instrument_token then
    match instrument_token with
    | Some tok => <[tok := make_quote tok tn.1 tn.2]> d
    | None => d
    end
  else d.

(** [on_ticks(ws, ticks)]: item assignment on the object [live_quotes]
    currently names; the name itself is not rebound. *)
Definition on_ticks (s : state) (ticks : list (tick * Q)) : state :=
  {| store := <[live_quotes s := foldl on_tick (cache s) ticks]> (store s);
     live_quotes := live_quotes s; kws := kws s;
     access_token_ws := access_token_ws s; api_key_ws := api_key_ws s;
     always_subscribed_tokens := always_subscribed_tokens s |}.

(** *** Cache reads and clear *)

Definition get_live_quote (s : state) (instrument_token : Z) : option quote :=
  cache s !! instrument_token.

(** Returns the object itself, not a copy. *)
Definition get_all_live_quotes (s : state) : positive := live_quotes s.

(** [live_quotes = {}]: a new empty dict is allocated and the global name is
    rebound to it; the old object is left as it was. *)
Definition clear_live_quotes (s : state) : state :=
  let r := fresh (dom (store s)) in
  {| store := <[r := ∅]> (store s);
     live_quotes := r; kws := kws s;
     access_token_ws := access_token_ws s; api_key_ws := api_key_ws s;
     always_subscribed_tokens := always_subscribed_tokens s |}.

(** *** Outcome of a call that talks to the ticker *)

Record outcome := {
  final : state;          (* module state when the call ends *)
  calls : list call;      (* ticker calls it made, in order *)
  threw : bool            (* whether an exception left the function *)
}.

Definition returns (s : state) (cs : list call) : outcome :=
  {| final := s; calls := cs; threw := false |}.

Definition throws (s : state) (cs : list call) : outcome :=
  {| final := s; calls := cs; threw := true |}.

(** *** [start_websocket] *)

Definition set_credentials (s : state) (api_k access_t : option string) : state :=
  {| store := store s; live_quotes := live_quotes s; kws := kws s;
     access_token_ws := access_t; api_key_ws := api_k;
     always_subscribed_tokens := always_subscribed_tokens s |}.

(** [if initial_tokens: always_subscribed_tokens.update(initial_tokens)] *)
Definition update_always (s : state) (initial_tokens : option (list Z)) : state :=
  match initial_tokens with
  | Some (t :: l) =>
      {| store := store s; live_quotes := live_quotes s; kws := kws s;
         access_token_ws := access_token_ws s; api_key_ws := api_key_ws s;
         always_subscribed_tokens :=
           always_subscribed_tokens s ∪ list_to_set (t :: l) |}
  | _ => s
  end.

(** Lines 149-166: a new instance is bound to [kws], the persistent tokens
    are extended and the connect thread is started. *)
Definition launch (s : state) (before : list call)
    (initial_tokens : option (list Z)) : outcome :=
  let k := KiteTicker (api_key_ws s) (access_token_ws s) in
  returns (update_always (set_kws s (Some k)) initial_tokens)
          (before ++ [CNew (api_key_ws s) (access_token_ws s); Spawn]).

Definition start_websocket (s : state) (api_k access_t : option string)
    (initial_tokens : option (list Z)) : outcome :=
  let s := set_credentials s api_k access_t in
  if negb (truthy_str api_k) || negb (truthy_str access_t) then returns s []
  else
    match kws s with
    | Some k =>
        if is_connected k then
          match stop k with
          | Ok k' => launch (set_kws s (Some k')) [CStop] initial_tokens
          | Raise k' => throws (set_kws s (Some k')) [CStop]
          end
        else launch (set_kws s None) [] initial_tokens
    | None => launch s [] initial_tokens
    end.

(** *** [stop_websocket] *)

Definition forget_ticker (s : state) : state :=
  {| store := store s; live_quotes := live_quotes s; kws := None;
     access_token_ws := access_token_ws s; api_key_ws := api_key_ws s;
     always_subscribed_tokens := ∅ |}.

Definition stop_websocket (s : state) : outcome :=
  match kws s with
  | Some k =>
      if is_connected k then
        match stop k with
        | Ok _ => returns (forget_ticker s) [CStop]
        | Raise k' => throws (set_kws s (Some k')) [CStop]
        end
      else returns (forget_ticker s) []
  | None => returns s []
  end.

(** *** [subscribe_to_tokens] *)

(** [current_subscriptions], as a set (the code only ever takes
    [set(current_subscriptions)]).  A missing or falsy attribute and an
    attribute of another type all leave the list empty. *)
Definition current_subscriptions (k : T) : gset Z :=
  match subscriptions k with
  | AttrDict d => dom d
  | AttrList l => list_to_set l
  | AttrSet s => s
  | AttrMissing | AttrOther _ => ∅
  end.

Definition subscribe_to_tokens (s : state) (tokens : list Z) : outcome :=
  match kws s with
  | Some k =>
      if is_connected k then
        let current := current_subscriptions k in
        let all_tokens_to_subscribe :=
          always_subscribed_tokens s ∪ list_to_set tokens in
        let tokens_to_unsubscribe := elements (current ∖ all_tokens_to_subscribe) in
        let tokens_to_add := elements (all_tokens_to_subscribe ∖ current) in
        (* an exception of unsubscribe is caught and logged *)
        let '(k1, c1) :=
          match tokens_to_unsubscribe with
          | [] => (k, [])
          | _ => (after (unsubscribe k tokens_to_unsubscribe),
                  [CUnsubscribe tokens_to_unsubscribe])
          end in
        match tokens_to_add with
        | [] => returns (set_kws s (Some k1)) c1
        | _ =>
            match subscribe k1 tokens_to_add with
            | Raise k2 =>
                throws (set_kws s (Some k2)) (c1 ++ [CSubscribe tokens_to_add])
            | Ok k2 =>
                let cs := c1 ++ [CSubscribe tokens_to_add;
                                 CSetModeFull tokens_to_add] in
                match set_mode_full k2 tokens_to_add with
                | Raise k3 => throws (set_kws s (Some k3)) cs
                | Ok k3 => returns (set_kws s (Some k3)) cs
                end
            end
        end
      else returns s []
  | None => returns s []
  end.

(** *** [on_connect] *)

(** [on_connect(ws, response)]: [ws] is the ticker that has just connected.
    The result is that ticker after the callback, the calls made on it and
    whether the callback raised. *)
Definition on_connect (s : state) (ws : T) : T * list call * bool :=
  match elements (always_subscribed_tokens s) with
  | [] => (ws, [], false)
  | l =>
      match subscribe ws l with
      | Raise ws1 => (ws1, [CSubscribe l], true)
      | Ok ws1 =>
          match set_mode_full ws1 l with
          | Raise ws2 => (ws2, [CSubscribe l; CSetModeFull l], true)
          | Ok ws2 => (ws2, [CSubscribe l; CSetModeFull l], false)
          end
      end
  end.

(** Tokens the ticker is asked to stream by a list of calls. *)
Definition subscribed_by (cs : list call) : gset Z :=
  ⋃ (map (λ c, match c with
               | CSubscribe l => list_to_set l
               | _ => ∅
               end) cs).

Definition unsubscribed_by (cs : list call) : gset Z :=
  ⋃ (map (λ c, match c with
               | CUnsubscribe l => list_to_set l
               | _ => ∅
               end) cs).

End WithTicker.

Arguments state T : clear implicits.
Arguments outcome T : clear implicits.

(** ** A reference ticker

    A ticker that keeps its subscriptions in a dict under the attribute
    [subscriptions], refuses calls while disconnected, and otherwise does
    what it is asked. *)
Record sim := {
  sim_connected : bool;
  sim_subscriptions : gmap Z string
}.

Definition sim_guard (k : sim) (f : gmap Z string → gmap Z string) : result sim :=
  if sim_connected k
  then Ok {| sim_connected := true; sim_subscriptions := f (sim_subscriptions k) |}
  else Raise k.

Definition set_all (mode : string) (l : list Z) (d : gmap Z string) : gmap Z string :=
  foldr (λ t d, <[t := mode]> d) d l.

Definition delete_all (l : list Z) (d : gmap Z string) : gmap Z string :=
  foldr delete d l.

#[export] Instance sim_ticker : Ticker sim := {|
  KiteTicker _ _ := {| sim_connected := false; sim_subscriptions := ∅ |};
  is_connected := sim_connected;
  subscriptions k := AttrDict (sim_subscriptions k);
  subscribe k l := sim_guard k (set_all "quote" l);
  unsubscribe k l := sim_guard k (delete_all l);
  set_mode_full k l := sim_guard k (set_all "full" l);
  stop k := Ok {| sim_connected := false; sim_subscriptions := sim_subscriptions k |}
|}.

(** A ticker without the attribute [subscriptions]: it tracks what it streams
    privately, so [subscribe_to_tokens] cannot read it. *)
Record blind := {
  blind_connected : bool;
  blind_streaming : gset Z
}.

#[export] Instance blind_ticker : Ticker blind := {|
  KiteTicker _ _ := {| blind_connected := false; blind_streaming := ∅ |};
  is_connected := blind_connected;
  subscriptions _ := AttrMissing;
  subscribe k l :=
    Ok {| blind_connected := blind_connected k;
          blind_streaming := blind_streaming k ∪ list_to_set l |};
  unsubscribe k l :=
    Ok {| blind_connected := blind_connected k;
          blind_streaming := blind_streaming k ∖ list_to_set l |};
  set_mode_full k l := Ok k;
  stop k := Ok {| blind_connected := false; blind_streaming := blind_streaming k |}
|}.

(** The set the code reads from the ticker, for the bound instance. *)
Definition active {T} `{Ticker T} (s : state T) : gset Z :=
  match kws s with
  | Some k => current_subscriptions k
  | None => ∅
  end.

Definition connected {T} `{Ticker T} (s : state T) : bool :=
  match kws s with
  | Some k => is_connected k
  | None => false
  end.

(** A ticker is faithful when, while connected, its calls return and the
    attribute [subscriptions] tracks them. *)
Class Faithful (T : Type) `{Ticker T} : Prop := {
  subscribe_tracks k l :
    is_connected k = true →
    ∃ k', subscribe k l = Ok k' ∧ is_connected k' = true ∧
          current_subscriptions k' = current_subscriptions k ∪ list_to_set l;
  unsubscribe_tracks k l :
    is_connected k = true →
    ∃ k', unsubscribe k l = Ok k' ∧ is_connected k' = true ∧
          current_subscriptions k' = current_subscriptions k ∖ list_to_set l;
  set_mode_keeps k l :
    is_connected k = true →
    ∃ k', set_mode_full k l = Ok k' ∧ is_connected k' = true ∧
          current_subscriptions k ⊆ current_subscriptions k' ∧
          current_subscriptions k' ⊆ current_subscriptions k ∪ list_to_set l
}.

(** The initial module state: an empty dict bound to [live_quotes], no
    ticker, no credentials, no persistent tokens. *)
Definition init {T} : state T :=
  {| store := {[ 1%positive := ∅ ]}; live_quotes := 1%positive; kws := None;
     access_token_ws := None; api_key_ws := None;
     always_subscribed_tokens := ∅ |}.

(** One call of a function of the module, or one callback delivery. *)
Inductive step {T} `{Ticker T} : state T → state T → Prop :=
  | step_ticks s ticks : step s (on_ticks s ticks)
  | step_clear s : step s (clear_live_quotes s)
  | step_start s a b i : step s (final (start_websocket s a b i))
  | step_stop s : step s (final (stop_websocket s))
  | step_subscribe s R : step s (final (subscribe_to_tokens s R))
  | step_connect s k : kws s = Some k →
      step s (set_kws s (Some (on_connect s k).1.1)).

Definition reachable {T} `{Ticker T} (s : state T) : Prop := rtc step init s.

(** Every entry is filed under the token its record carries, and that token
    is truthy. *)
Definition well_keyed (d : gmap Z quote) : Prop :=
  ∀ k q, d !! k = Some q → k ≠ 0 ∧ instrument_token q = k.

Definition accepted (tn : tick * Q) : bool :=
  truthy_int (dict_get (t_instrument_token tn.1)).

(** ** States used in examples

    NIFTY (256265) is the persistent token, BANKNIFTY (260105) a requested
    one, as in [INDEX_INSTRUMENT_DETAILS]. *)

Definition nifty_tick : tick :=
  {| t_instrument_token := Value 256265; t_last_price := Value (24853 # 1);
     t_ohlc := Missing; t_volume_traded := Value 0; t_oi := Value 0;
     t_depth := Missing |}.

Definition sim_state (k : option sim) (d : gmap Z quote) : state sim :=
  {| store := {[ 1%positive := d ]}; live_quotes := 1%positive; kws := k;
     access_token_ws := Some "token"; api_key_ws := Some "key";
     always_subscribed_tokens := {[ 256265 ]} |}.

Definition sim_online : sim :=
  {| sim_connected := true; sim_subscriptions := {[ 256265 := "full" ]} |}.

Definition sim_offline : sim :=
  {| sim_connected := false; sim_subscriptions := ∅ |}.

End KiteWS.

(* ================================================================== *)
(** * The strike window of [plot_option_chain] ([kite1.py]) *)

Module OptionChain.
Import KiteWS.

(** ** Index table *)

Record index_details := {
  index_token : Z;        (* "instrument_token" *)
  strike_step : Z
}.

Definition INDEX_INSTRUMENT_DETAILS : list (string * index_details) :=
  [ ("NIFTY",      {| index_token := 256265; strike_step := 50 |});
    ("BANKNIFTY",  {| index_token := 260105; strike_step := 100 |});
    ("FINNIFTY",   {| index_token := 257801; strike_step := 50 |});
    ("MIDCPNIFTY", {| index_token := 288009; strike_step := 25 |});
    ("SENSEX",     {| index_token := 265;    strike_step := 100 |});
    ("BANKEX",     {| index_token := 274441; strike_step := 100 |}) ].

(** [str.upper()] on ASCII letters. *)
Definition upper_ascii (c : ascii) : ascii :=
  let n := nat_of_ascii c in
  if (97 <=? n)%nat && (n <=? 122)%nat then ascii_of_nat (n - 32) else c.

Fixpoint upper (s : string) : string :=
  match s with
  | EmptyString => EmptyString
  | String c s' => String (upper_ascii c) (upper s')
  end.

Fixpoint assoc_get {A} (key : string) (l : list (string * A)) : option A :=
  match l with
  | [] => None
  | (k, v) :: l' => if String.eqb k key then Some v else assoc_get key l'
  end.

Definition index_tokens : list Z :=
  map (λ kv, index_token kv.2) INDEX_INSTRUMENT_DETAILS.

(** ** Numbers *)

(** Python's [round(x)] on a float: nearest integer, ties to the even one. *)
Definition py_round (x : Q) : Z :=
  let f := Qfloor x in
  match (x - inject_Z f ?= 1 # 2)%Q with
  | Lt => f
  | Gt => f + 1
  | Eq => if Z.even f then f else f + 1
  end.

(** [strikes.index(x)]; [None] stands for the [ValueError]. *)
Fixpoint index_of (x : Q) (l : list Q) : option nat :=
  match l with
  | [] => None
  | y :: l' => if Qeq_bool y x then Some 0%nat else S <$> index_of x l'
  end.

(** [min(strikes, key=lambda x: abs(x - current_ltp))]: the running best is
    replaced only by a strictly closer strike, so the first of equally close
    strikes wins. *)
Fixpoint closest_from (p best : Q) (l : list Q) : Q :=
  match l with
  | [] => best
  | x :: l' =>
      closest_from p
        (match (Qabs (x - p) ?= Qabs (best - p))%Q with
         | Lt => x
         | _ => best
         end) l'
  end.

(** [None] stands for the [ValueError] of [min] on an empty list. *)
Definition closest (p : Q) (l : list Q) : option Q :=
  match l with
  | [] => None
  | x :: l' => Some (closest_from p x l')
  end.

(** [l[a:b]] for [0 <= a] and [0 <= b], the only slices the code takes. *)
Definition py_slice {A} (l : list A) (a b : Z) : list A :=
  take (Z.to_nat (b - a)) (drop (Z.to_nat a) l).

(** [sorted(list(column.unique()))] *)
Fixpoint insert_strike (x : Q) (l : list Q) : list Q :=
  match l with
  | [] => [x]
  | y :: l' =>
      match (x ?= y)%Q with
      | Lt => x :: l
      | Eq => l
      | Gt => y :: insert_strike x l'
      end
  end.

Definition sorted_unique (l : list Q) : list Q := foldr insert_strike [] l.

(** ** Inputs *)

Inductive option_type := CE | PE.

(** A row of the instrument master, already filtered to the chosen name,
    exchange and expiry ([options_for_expiry]). *)
Record option_row := {
  row_token : Z;
  row_strike : Q;
  row_type : option_type
}.

(** Reply of the one-shot [kite.ltp] call: the lookup of the underlying's row
    or the call itself raised, the reply has no entry for the symbol, or it
    carries a last price. *)
Inductive rest_reply :=
  | RestRaises
  | RestNoEntry
  | RestQuote (last_price : Q).

(** The arguments of the callback and the globals it tests first. *)
Record request := {
  triggered : bool;                  (* ctx.triggered *)
  kite_ready : bool;                 (* kite *)
  access_token : option string;
  instrument_df_empty : bool;
  underlying_symbol : option string;
  expiry_date_str : option string;
  expiry_parses : bool;              (* strptime accepts expiry_date_str *)
  num_otm_strikes : option Z         (* None: not an int, or None *)
}.

(** The ways the callback ends, up to the subscription call.  [Chain] is
    the point after that call, where the table and chart code is entered
    with [display_strikes]; building them from the cache is not modelled,
    and an exception raised there (as when a cached quote has [depth] set to
    [None]) ends in the same error return as [Failed]. *)
Inductive chain_result (T : Type) :=
  | NotReady           (* "Please load instrument master ..." *)
  | NoSelection        (* "Please select an underlying index ..." *)
  | IndexMissing       (* "Details for index ... not found." *)
  | NoOptions          (* "No options found for ..." *)
  | NoStrikes          (* "No strikes to display based on criteria." *)
  | Failed             (* "Error generating option chain: ..." *)
  | Chain (display_strikes : list Q) (current_ltp : option Q)
          (subscription : outcome T).
Arguments NotReady {T}.
Arguments NoSelection {T}.
Arguments IndexMissing {T}.
Arguments NoOptions {T}.
Arguments NoStrikes {T}.
Arguments Failed {T}.
Arguments Chain {T} display_strikes current_ltp subscription.

(** ** The steps of the callback *)

(** Lines 867-869. *)
Definition normalize_otm (num_otm_strikes : option Z) : Z :=
  match num_otm_strikes with
  | Some n => if n <? 0 then 5 else n
  | None => 5
  end.

Section WithTicker.
Context {T : Type} `{Ticker T}.

(** Lines 898-907: up to [max_retries] reads of the cache, half a second
    apart; [ws_at i] is the module state at attempt [i].  The loop stops at
    the first attempt that finds a quote, whatever its [last_price]. *)
Fixpoint poll_ltp (ws_at : nat → state T) (underlying_token : Z)
    (attempt retries : nat) : option Q :=
  match retries with
  | O => None
  | S r =>
      match get_live_quote (ws_at attempt) underlying_token with
      | Some q => last_price q
      | None => poll_ltp ws_at underlying_token (S attempt) r
      end
  end.

(** Lines 909-919. *)
Definition with_rest_fallback (current_ltp : option Q) (reply : rest_reply)
    : option Q :=
  match current_ltp with
  | Some p => Some p
  | None =>
      match reply with
      | RestQuote p => Some p
      | RestRaises | RestNoEntry => None
      end
  end.

End WithTicker.

(** Lines 942-950: the ATM strike and its index, in exact arithmetic.
    [None] stands for an exception that reaches the outer handler.  The
    same lines in double-precision arithmetic are [locate_atm_double] of
    module [PyFloat]; the two can differ where a double operation rounds. *)
Definition locate_atm (strikes : list Q) (current_ltp : Q) (strike_step : Z)
    : option (Q * nat) :=
  if strike_step =? 0 then None
  else
    let atm_strike :=
      inject_Z (py_round (current_ltp / inject_Z strike_step) * strike_step) in
    match index_of atm_strike strikes with
    | Some i => Some (atm_strike, i)
    | None =>
        match closest current_ltp strikes with
        | Some atm_strike =>
            match index_of atm_strike strikes with
            | Some i => Some (atm_strike, i)
            | None => None
            end
        | None => None
        end
    end.

(** Lines 953-965. *)
Definition window (strikes : list Q) (atm_idx_in_all_strikes : nat)
    (num_otm_strikes : Z) : list Q :=
  let display_window_size := 2 * num_otm_strikes + 1 in
  let len := Z.of_nat (length strikes) in
  let atm := Z.of_nat atm_idx_in_all_strikes in
  let start_idx := Z.max 0 (atm - num_otm_strikes) in
  let end_idx := Z.min len (atm + num_otm_strikes + 1) in
  let start_idx :=
    if end_idx - start_idx <? display_window_size
    then Z.max 0 (end_idx - display_window_size)
    else start_idx in
  let display_strikes := py_slice strikes start_idx end_idx in
  if (Z.of_nat (length display_strikes) <? display_window_size)
     && (display_window_size <=? len)
  then py_slice strikes 0 display_window_size
  else display_strikes.

(** Lines 939-969: [display_strikes]; [None] stands for an exception. *)
Definition select_display_strikes (strikes : list Q) (current_ltp : option Q)
    (strike_step num_otm_strikes : Z) : option (list Q) :=
  let display_window_size := 2 * num_otm_strikes + 1 in
  let len := Z.of_nat (length strikes) in
  match
    match current_ltp with
    | Some p =>
        match locate_atm strikes p strike_step with
        | Some (_, i) => Some (window strikes i num_otm_strikes)
        | None => None
        end
    | None => Some []
    end
  with
  | Some [] =>
      (* "Fallback if for some reason no ATM found or strikes list is too
         small" *)
      match strikes with
      | [] => Some []
      | _ => Some (py_slice strikes 0 (Z.min len display_window_size))
      end
  | r => r
  end.

Definition strike_in (display_strikes : list Q) (x : Q) : bool :=
  existsb (Qeq_bool x) display_strikes.

Definition is_ce (r : option_row) : bool :=
  match row_type r with CE => true | PE => false end.

(** Lines 975-983: index tokens, then the displayed calls, then the displayed
    puts. *)
Definition instruments_to_subscribe (options_for_expiry : list option_row)
    (display_strikes : list Q) : list Z :=
  let shown r := strike_in display_strikes (row_strike r) in
  index_tokens
  ++ map row_token (List.filter (λ r, is_ce r && shown r) options_for_expiry)
  ++ map row_token (List.filter (λ r, negb (is_ce r) && shown r) options_for_expiry).

Section WithTicker.
Context {T : Type} `{Ticker T}.

(** [plot_option_chain], up to the point where the table is built.
    [ws_at i] is the module state of [kitews] at the [i]-th poll, [ws_sub]
    the one the subscription call finds. *)
Definition plot_option_chain (req : request)
    (ws_at : nat → state T) (ws_sub : state T) (reply : rest_reply)
    (options_for_expiry : list option_row) : chain_result T :=
  let num_otm_strikes := normalize_otm (num_otm_strikes req) in
  if negb (triggered req) || negb (kite_ready req)
     || negb (truthy_str (access_token req)) || instrument_df_empty req
  then NotReady
  else if negb (truthy_str (underlying_symbol req))
          || negb (truthy_str (expiry_date_str req))
  then NoSelection
  else if negb (expiry_parses req) then Failed
  else
    match assoc_get (upper (default EmptyString (underlying_symbol req)))
            INDEX_INSTRUMENT_DETAILS with
    | None => IndexMissing
    | Some index_details =>
        let underlying_token := index_token index_details in
        let strike_step := strike_step index_details in
        let current_ltp :=
          with_rest_fallback (poll_ltp ws_at underlying_token 0 3) reply in
        match options_for_expiry with
        | [] => NoOptions
        | _ =>
            let strikes := sorted_unique (map row_strike options_for_expiry) in
            match select_display_strikes strikes current_ltp strike_step
                    num_otm_strikes with
            | None => Failed
            | Some [] => NoStrikes
            | Some display_strikes =>
                let o := subscribe_to_tokens ws_sub
                           (instruments_to_subscribe options_for_expiry
                              display_strikes) in
                if threw o then Failed
                else Chain display_strikes current_ltp o
            end
        end
    end.

End WithTicker.

(** The request gets past the checks made before any price is read. *)
Definition passes_guards (req : request) : bool :=
  triggered req && kite_ready req && truthy_str (access_token req)
  && negb (instrument_df_empty req)
  && truthy_str (underlying_symbol req) && truthy_str (expiry_date_str req)
  && expiry_parses req.

(** ** Inputs used in examples *)

Definition nifty_request (n : option Z) : request :=
  {| triggered := true; kite_ready := true; access_token := Some "token";
     instrument_df_empty := false; underlying_symbol := Some "nifty";
     expiry_date_str := Some "2025-07-31"; expiry_parses := true;
     num_otm_strikes := n |}.

Definition ce_pe (tok : Z) (strike : Z) : list option_row :=
  [ {| row_token := tok; row_strike := inject_Z strike; row_type := CE |};
    {| row_token := tok + 1; row_strike := inject_Z strike; row_type := PE |} ].

Definition strikes_of (l : list Z) : list Q := map inject_Z l.

End OptionChain.

(* ================================================================== *)
(** * The ATM strike on doubles ([kite1.py], lines 941-950) *)

(** Python floats are IEEE 754 binary64 numbers, the primitive floats of
    Rocq.  [current_ltp] and the strikes are floats here, [strike_step] is
    the int of [INDEX_INSTRUMENT_DETAILS] and [atm_strike] is first an int
    and then, in the handler of [ValueError], a strike of the list.  The
    strikes of a DataFrame column are numpy [float64] scalars, which are
    doubles as well; they are taken to compare with an int as Python floats
    do.  (A [current_ltp] that is an int below [2^53] behaves as the float
    of the same value.) *)
Module PyFloat.
Import OptionChain.

(** The number a finite double stands for; [None] for nan and the
    infinities. *)
Definition exact (x : float) : option Q :=
  match Prim2SF x with
  | S754_zero _ => Some 0%Q
  | S754_finite s m e =>
      Some (inject_Z (if s then Z.neg m else Z.pos m) * Qpower 2 e)%Q
  | S754_infinity _ | S754_nan => None
  end.

(** The conversion of the int operand of [current_ltp / strike_step]: the
    nearest double, ties to even; [None] stands for the [OverflowError] of
    an int beyond the range of doubles. *)
Definition float_of_int (n : Z) : option float :=
  let x := SF2Prim (binary_normalize prec emax n 0 false) in
  if is_infinity x then None else Some x.

(** [round(x)] on a float: the nearest int, ties to the even one; [None]
    stands for the [ValueError] on nan and the [OverflowError] on an
    infinity. *)
Definition round (x : float) : option Z := py_round <$> exact x.

(** [x == n] for a float [x] and an int [n]: Python compares the exact
    values. *)
Definition eq_int (n : Z) (x : float) : bool :=
  match exact x with
  | Some q => Qeq_bool q (inject_Z n)
  | None => false
  end.

(** The test [list.index] makes on an element [x] when it looks for the
    float [a] that [min] took from the same list: [x is a or x == a].  Only
    a nan differs from itself, and it is found by identity. *)
Definition same (a x : float) : bool :=
  (x =? a)%float || (is_nan x && is_nan a).

(** [l.index(...)]; [None] stands for the [ValueError]. *)
Fixpoint index_by (found : float → bool) (l : list float) : option nat :=
  match l with
  | [] => None
  | y :: l' => if found y then Some 0%nat else S <$> index_by found l'
  end.

(** [abs(x - current_ltp)], the key of [min]. *)
Definition distance (current_ltp x : float) : float :=
  abs (x - current_ltp)%float.

(** [min(strikes, key=...)]: the running minimum is replaced only by an
    element whose key is below its key. *)
Fixpoint min_from (current_ltp best : float) (l : list float) : float :=
  match l with
  | [] => best
  | x :: l' =>
      min_from current_ltp
        (if (distance current_ltp x <? distance current_ltp best)%float
         then x else best) l'
  end.

(** The value of [atm_strike] when the index is found. *)
Inductive atm :=
  | AtmRounded (atm_strike : Z)        (* round(...) * strike_step *)
  | AtmNearest (atm_strike : float).   (* min(strikes, key=...) *)

(** Lines 942-950: [atm_strike] and [atm_idx_in_all_strikes].  [None]
    stands for an exception that reaches the outer handler. *)
Definition locate_atm_double (strikes : list float) (current_ltp : float)
    (strike_step : Z) : option (atm * nat) :=
  if strike_step =? 0 then None
  else
    match float_of_int strike_step with
    | None => None
    | Some step =>
        match round (current_ltp / step)%float with
        | None => None
        | Some n =>
            let atm_strike := n * strike_step in
            match index_by (eq_int atm_strike) strikes with
            | Some i => Some (AtmRounded atm_strike, i)
            | None =>
                match strikes with
                | [] => None
                | x :: l =>
                    let atm_strike := min_from current_ltp x l in
                    match index_by (same atm_strike) strikes with
                    | Some i => Some (AtmNearest atm_strike, i)
                    | None => None
                    end
                end
            end
        end
    end.

(** The order [<] of doubles, read off the sign, exponent and mantissa:
    [rank] sends the doubles other than nan to triples in lexicographic
    order. *)
Definition rank (x : spec_float) : option (Z * Z * Z) :=
  match x with
  | S754_nan => None
  | S754_infinity true => Some (-2, 0, 0)
  | S754_infinity false => Some (2, 0, 0)
  | S754_zero _ => Some (0, 0, 0)
  | S754_finite false m e => Some (1, e, Z.pos m)
  | S754_finite true m e => Some (-1, - e, Z.neg m)
  end.

Definition lex_lt (a b : Z * Z * Z) : Prop :=
  a.1.1 < b.1.1 ∨
  (a.1.1 = b.1.1 ∧ (a.1.2 < b.1.2 ∨ (a.1.2 = b.1.2 ∧ a.2 < b.2))).

Definition below (x y : float) : Prop :=
  match rank (Prim2SF x), rank (Prim2SF y) with
  | Some a, Some b => lex_lt a b
  | _, _ => False
  end.

Definition at_most (x y : float) : Prop :=
  match rank (Prim2SF x), rank (Prim2SF y) with
  | Some a, Some b =>
      lex_lt a b ∨ (a.1.1 = b.1.1 ∧ a.1.2 = b.1.2 ∧ a.2 = b.2)
  | _, _ => False
  end.

End PyFloat.

(* ================================================================== *)
(** * The other callers of [kitews] in [kite1.py] *)

Module Callers.
Import KiteWS OptionChain.

(** ** Session start and end *)

Section WithTicker.
Context {T : Type} `{Ticker T}.

(** Lines 519-520 (clear-token branch of [handle_kite_init_and_clear]), and
    again 67-68 and 605-606 on the failure paths: [kitews.stop_websocket()]
    followed by [kitews.clear_live_quotes()].  None of the three places
    catches an exception of the first call, so the second is not reached
    when [stop_websocket] raises. *)
Definition stop_and_clear (s : state T) : outcome T :=
  let o := stop_websocket s in
  if threw o then o
  else {| final := clear_live_quotes (final o); calls := calls o;
          threw := false |}.

(** Lines 59-60 and 591-592: the socket is started with every index token
    as [initial_tokens]. *)
Definition start_with_indices (s : state T)
    (api_key access_token : option string) : outcome T :=
  start_websocket s api_key access_token (Some index_tokens).

End WithTicker.

(** ** [fetch_live_quotes] *)

(** [str.isspace] on ASCII characters. *)
Definition is_space (c : ascii) : bool :=
  let n := nat_of_ascii c in
  ((9 <=? n)%nat && (n <=? 13)%nat) || ((28 <=? n)%nat && (n <=? 32)%nat).

Fixpoint lstrip (l : list ascii) : list ascii :=
  match l with
  | c :: l' => if is_space c then lstrip l' else l
  | [] => []
  end.

(** [s.strip()] *)
Definition strip (s : string) : string :=
  string_of_list_ascii
    (rev (lstrip (rev (lstrip (list_ascii_of_string s))))).

(** [s.split(',')] *)
Fixpoint split_comma (s : string) : list string :=
  match s with
  | EmptyString => [EmptyString]
  | String c s' =>
      if Ascii.eqb c "," then EmptyString :: split_comma s'
      else match split_comma s' with
           | h :: t => String c h :: t
           | [] => [String c EmptyString]
           end
  end.

Definition nonempty (s : string) : bool :=
  match s with EmptyString => false | _ => true end.

(** Line 1331:
    [[s.strip().upper() for s in symbols_input.split(',') if s.strip()]] *)
Definition parse_symbols (symbols_input : string) : list string :=
  map (λ s, upper (strip s))
      (List.filter (λ s, nonempty (strip s)) (split_comma symbols_input)).

(** One line of the table: the symbol, its token (['-'] when the symbol is
    not in the instrument master), the last price (['-'] when the cache has
    none) and the open interest (['-'] when the token has no cached quote,
    [None] when its quote has none). *)
Record quote_row := {
  q_symbol : string;
  q_token : option Z;
  q_ltp : option Q;
  q_oi : field Z
}.

Definition not_found_row (symbol : string) : quote_row :=
  {| q_symbol := symbol; q_token := None; q_ltp := None; q_oi := Missing |}.

(** Lines 1363-1374, for one symbol; [quotes_from_ws] is the cache. *)
Definition display_row (master : list (string * Z))
    (quotes_from_ws : gmap Z quote) (symbol : string) : quote_row :=
  match assoc_get symbol master with
  | Some token =>
      {| q_symbol := symbol; q_token := Some token;
         q_ltp := quotes_from_ws !! token ≫= last_price;
         q_oi := match quotes_from_ws !! token with
                 | None => Missing
                 | Some q => match oi q with
                             | Some z => Value z
                             | None => IsNone
                             end
                 end |}
  | None => not_found_row symbol
  end.

(** Lines 1343-1349: the tokens of the symbols found in the master, in the
    order of the symbols. *)
Definition found_tokens (master : list (string * Z)) (symbols_list : list string)
    : list Z :=
  omap (λ symbol, assoc_get symbol master) symbols_list.

Inductive quotes_result (T : Type) :=
  | NoClick                (* the default return *)
  | NotConnected           (* "WebSocket not connected. ..." *)
  | NoSymbolsEntered       (* "Please enter at least one trading symbol." *)
  | NoValidSymbols         (* "No valid symbols entered." *)
  | NoValidTokens (display_quotes : list quote_row)
  | Raised (subscription : outcome T)
                           (* subscribe_to_tokens raised; nothing catches it *)
  | Table (rows : list quote_row) (subscription : outcome T).
Arguments NoClick {T}.
Arguments NotConnected {T}.
Arguments NoSymbolsEntered {T}.
Arguments NoValidSymbols {T}.
Arguments NoValidTokens {T} display_quotes.
Arguments Raised {T} subscription.
Arguments Table {T} rows subscription.

Section WithTicker.
Context {T : Type} `{Ticker T}.

(** [fetch_live_quotes(n_clicks, symbols_input)]; [master] is the
    (tradingsymbol, instrument_token) column pair of a loaded
    [instrument_df], [ws] the state of [kitews] when the callback runs.
    The frame the module starts with, [pd.DataFrame()], has no column
    [tradingsymbol]: the lookup at line 1344 then raises, which no list
    [master] stands for. *)
Definition fetch_live_quotes (n_clicks : option Z)
    (symbols_input : option string) (master : list (string * Z))
    (ws : state T) : quotes_result T :=
  if negb (truthy_int n_clicks) then NoClick
  else if negb (connected ws) then NotConnected
  else if negb (truthy_str symbols_input) then NoSymbolsEntered
  else
    let symbols_list := parse_symbols (default EmptyString symbols_input) in
    match symbols_list with
    | [] => NoValidSymbols
    | _ =>
        let tokens_to_fetch := index_tokens ++ found_tokens master symbols_list in
        match tokens_to_fetch with
        | [] =>
            NoValidTokens
              (map not_found_row
                 (List.filter (λ symbol, negb (bool_decide
                                 (is_Some (assoc_get symbol master))))
                    symbols_list))
        | _ =>
            let o := subscribe_to_tokens ws tokens_to_fetch in
            if threw o then Raised o
            else Table (map (display_row master (cache (final o))) symbols_list) o
        end
    end.

End WithTicker.

(** ** In-the-money marks of the option chain table *)

(** Lines 1016-1017: a call is marked when its strike is below the reference
    price, a put when its strike is above it; without a price none is. *)
Definition call_itm (current_ltp : option Q) (strike : Q) : bool :=
  match current_ltp with
  | Some p => match (strike ?= p)%Q with Lt => true | _ => false end
  | None => false
  end.

Definition put_itm (current_ltp : option Q) (strike : Q) : bool :=
  match current_ltp with
  | Some p => match (strike ?= p)%Q with Gt => true | _ => false end
  | None => false
  end.

(** ** Reading the call log *)

(** Tokens put in full mode by a list of calls. *)
Definition full_mode_by (cs : list call) : gset Z :=
  ⋃ (map (λ c, match c with
               | CSetModeFull l => list_to_set l
               | _ => ∅
               end) cs).

(** A ticker that exposes its subscriptions as a set and whose [unsubscribe]
    always raises. *)
Record stubborn := {
  stubborn_connected : bool;
  stubborn_subscriptions : gset Z
}.

#[export] Instance stubborn_ticker : Ticker stubborn := {|
  KiteTicker _ _ := {| stubborn_connected := false;
                       stubborn_subscriptions := ∅ |};
  is_connected := stubborn_connected;
  subscriptions k := AttrSet (stubborn_subscriptions k);
  subscribe k l :=
    Ok {| stubborn_connected := stubborn_connected k;
          stubborn_subscriptions := stubborn_subscriptions k ∪ list_to_set l |};
  unsubscribe k l := Raise k;
  set_mode_full k l := Ok k;
  stop k := Ok {| stubborn_connected := false;
                  stubborn_subscriptions := stubborn_subscriptions k |}
|}.

(** ** Inputs used in examples *)

Definition master_example : list (string * Z) :=
  [ ("RELIANCE", 738561); ("INFY", 408065); ("RELIANCE", 999) ].

Definition banknifty_tick : tick :=
  {| t_instrument_token := Value 260105; t_last_price := Value (55120 # 1);
     t_ohlc := Missing; t_volume_traded := Missing; t_oi := Missing;
     t_depth := Missing |}.

Definition stubborn_state : state stubborn :=
  {| store := {[ 1%positive := ∅ ]}; live_quotes := 1%positive;
     kws := Some {| stubborn_connected := true;
                    stubborn_subscriptions := {[ 256265; 738561 ]} |};
     access_token_ws := Some "token"; api_key_ws := Some "key";
     always_subscribed_tokens := {[ 256265 ]} |}.

End Callers.

(* ================================================================== *)
(** * Properties of [kitews.py] *)

Module KiteWSFacts.
Import KiteWS.

(** ** The reference ticker is faithful *)

Lemma dom_set_all mode l (d : gmap Z string) :
  dom (set_all mode l d) = dom d ∪ list_to_set l.
Proof.
  induction l as [|t l IH]; simpl.
  - set_solver.
  - rewrite dom_insert_L, IH. set_solver.
Qed.

Lemma dom_delete_all l (d : gmap Z string) :
  dom (delete_all l d) = dom d ∖ list_to_set l.
Proof.
  induction l as [|t l IH]; simpl.
  - set_solver.
  - rewrite dom_delete_L, IH. set_solver.
Qed.

#[export] Instance sim_faithful : Faithful sim.
Proof.
  split; intros [c d] l Hc; simpl in Hc; subst c;
    eexists; (split; [reflexivity|]); (split; [reflexivity|]);
    unfold current_subscriptions; simpl.
  - apply dom_set_all.
  - apply dom_delete_all.
  - rewrite dom_set_all. set_solver.
Qed.

(** ** Reconciliation on a connected, faithful ticker *)

Section Reconcile.
Context {T : Type} `{Faithful T}.
Implicit Types (s : state T) (k : T) (R : list Z).

Lemma elements_nil_empty (X : gset Z) : elements X = [] → X = ∅.
Proof. intros E. apply leibniz_equiv. by apply elements_empty_iff. Qed.

Lemma elements_cons_inhabited (X : gset Z) x l : elements X = x :: l → X ≠ ∅.
Proof. intros E HX. subst X. rewrite elements_empty in E. discriminate. Qed.

(** Removing what is outside the target and adding what is missing from it
    leaves exactly the target. *)
Lemma delta_reaches_target (cur target : gset Z) :
  (cur ∖ (cur ∖ target)) ∪ (target ∖ cur) = target.
Proof.
  apply set_eq. intros x.
  rewrite elem_of_union, !elem_of_difference.
  destruct (decide (x ∈ cur)), (decide (x ∈ target)); tauto.
Qed.

(** What one call does on a connected faithful ticker: it returns, the
    instance stays bound and connected, its subscriptions are the target, and
    the calls are the unsubscribe of [active ∖ target] (if non-empty) followed
    by the subscribe and the mode request of [target ∖ active] (if
    non-empty). *)
Lemma subscribe_to_tokens_connected s k R :
  kws s = Some k → is_connected k = true →
  let target := always_subscribed_tokens s ∪ list_to_set R in
  let cur := current_subscriptions k in
  ∃ k',
    subscribe_to_tokens s R =
      returns (set_kws s (Some k'))
        ((if decide (cur ∖ target = ∅) then []
          else [CUnsubscribe (elements (cur ∖ target))]) ++
         (if decide (target ∖ cur = ∅) then []
          else [CSubscribe (elements (target ∖ cur));
                CSetModeFull (elements (target ∖ cur))])) ∧
    is_connected k' = true ∧
    current_subscriptions k' = target.
Proof.
  intros Hk Hc target cur. unfold subscribe_to_tokens.
  rewrite Hk, Hc. fold target cur.
  (* the unsubscribe step *)
  assert (∃ k1 c1,
    (match elements (cur ∖ target) with
     | [] => (k, [])
     | _ => (after (unsubscribe k (elements (cur ∖ target))),
             [CUnsubscribe (elements (cur ∖ target))])
     end) = (k1, c1) ∧
    c1 = (if decide (cur ∖ target = ∅) then []
          else [CUnsubscribe (elements (cur ∖ target))]) ∧
    is_connected k1 = true ∧
    current_subscriptions k1 = cur ∖ (cur ∖ target)) as (k1 & c1 & E1 & Ec1 & Hc1 & Hs1).
  { destruct (elements (cur ∖ target)) as [|x l] eqn:E.
    - apply elements_nil_empty in E. exists k, []. rewrite E.
      rewrite decide_True by done. repeat split; try done.
      fold cur. set_solver.
    - pose proof (elements_cons_inhabited _ _ _ E) as Hne.
      destruct (unsubscribe_tracks k (x :: l) Hc) as (k1 & Eu & Hc1 & Hs1).
      exists k1, [CUnsubscribe (x :: l)]. rewrite Eu. simpl.
      rewrite decide_False by done. repeat split; try done.
      rewrite Hs1, <- E, list_to_set_elements_L. done. }
  rewrite E1. subst c1.
  destruct (elements (target ∖ cur)) as [|y m] eqn:Ea.
  - apply elements_nil_empty in Ea. exists k1.
    rewrite (decide_True _ _ Ea), app_nil_r. repeat split; try done.
    rewrite Hs1. rewrite <- (delta_reaches_target cur target) at 2.
    rewrite Ea. set_solver.
  - pose proof (elements_cons_inhabited _ _ _ Ea) as Hne.
    destruct (subscribe_tracks k1 (y :: m) Hc1) as (k2 & Es & Hc2 & Hs2).
    destruct (set_mode_keeps k2 (y :: m) Hc2) as (k3 & Em & Hc3 & Hlo & Hhi).
    exists k3. rewrite Es, Em. rewrite (decide_False _ _ Hne).
    repeat split; try done.
    transitivity ((cur ∖ (cur ∖ target)) ∪ (target ∖ cur));
      [|apply delta_reaches_target].
    rewrite <- Hs1. rewrite <- Ea in Hs2, Hhi.
    rewrite list_to_set_elements_L in Hs2, Hhi.
    rewrite Hs2 in Hlo, Hhi. set_solver.
Qed.

End Reconcile.

(** ** Reconciliation on any ticker *)

Section AnyTicker.
Context {T : Type} `{Ticker T}.
Implicit Types (s : state T) (k : T) (R : list Z).

Lemma set_kws_same s k : kws s = Some k → set_kws s (Some k) = s.
Proof. destruct s. simpl. by intros ->. Qed.

(** [subscribe_to_tokens] never changes the persistent set. *)
Lemma always_subscribe s R :
  always_subscribed_tokens (final (subscribe_to_tokens s R))
  = always_subscribed_tokens s.
Proof.
  unfold subscribe_to_tokens.
  destruct (kws s) as [k|]; [|done].
  destruct (is_connected k); [|done].
  destruct (elements (current_subscriptions k ∖ _));
    destruct (elements (_ ∖ current_subscriptions k)); try reflexivity;
    destruct (subscribe _ _) as [k2|k2]; try reflexivity;
    destruct (set_mode_full k2 _); reflexivity.
Qed.

(** The only list ever handed to [unsubscribe] is [active ∖ target]. *)
Lemma unsubscribed_outside_target s R t :
  t ∈ unsubscribed_by (calls (subscribe_to_tokens s R)) →
  t ∉ always_subscribed_tokens s ∪ list_to_set R.
Proof.
  assert (Hnone : t ∈ (∅ : gset Z) →
                  t ∉ always_subscribed_tokens s ∪ list_to_set R).
  { intros Hin. exfalso. exact (not_elem_of_empty t Hin). }
  unfold subscribe_to_tokens.
  destruct (kws s) as [k|]; [|exact Hnone].
  destruct (is_connected k); [|exact Hnone].
  fold (always_subscribed_tokens s ∪ list_to_set R) in *.
  set (target := always_subscribed_tokens s ∪ list_to_set R) in *.
  assert (Hun : ∀ l, elements (current_subscriptions k ∖ target) = l →
                     t ∈ (list_to_set l : gset Z) → t ∉ target).
  { intros l <-. rewrite list_to_set_elements_L.
    by intros [_ ?]%elem_of_difference. }
  destruct (elements (current_subscriptions k ∖ target)) as [|x l] eqn:E1;
    destruct (elements (target ∖ current_subscriptions k)) as [|y m];
    try (destruct (subscribe _ _) as [k2|k2];
         try destruct (set_mode_full k2 _));
    unfold unsubscribed_by, returns, throws; simpl;
    rewrite ?union_empty_r_L;
    solve [ exact Hnone | exact (Hun _ eq_refl) ].
Qed.

(** When the active set already is the target, nothing is sent. *)
Lemma subscribe_to_tokens_at_target s R :
  active s = always_subscribed_tokens s ∪ list_to_set R →
  subscribe_to_tokens s R = returns s [].
Proof.
  unfold active, subscribe_to_tokens.
  destruct (kws s) as [k|] eqn:Ek; [|done].
  destruct (is_connected k); [|done].
  intros <-. rewrite difference_diag_L, elements_empty.
  by rewrite set_kws_same.
Qed.

(** The branches that read the attribute (dict, list or set).  The code
    keeps no active set of its own: it reads the ticker's attribute
    [subscriptions].  On a connected ticker that tracks its subscriptions
    there and whose calls return, the active set after
    [subscribe_to_tokens(R)] is [always_subscribed_tokens ∪ R] and contains
    the persistent set.  On every ticker the persistent set is left as it
    was and none of its tokens is passed to [unsubscribe]. *)
Theorem reconcile_reaches_target s R :
  let o := subscribe_to_tokens s R in
  (∀ t, t ∈ always_subscribed_tokens s → t ∉ unsubscribed_by (calls o)) ∧
  always_subscribed_tokens (final o) = always_subscribed_tokens s ∧
  (Faithful T → connected s = true →
     threw o = false ∧
     connected (final o) = true ∧
     active (final o) = always_subscribed_tokens s ∪ list_to_set R ∧
     always_subscribed_tokens s ⊆ active (final o)).
Proof.
  intros o. split; [|split].
  - intros t Ht Hin. apply unsubscribed_outside_target in Hin.
    apply Hin, elem_of_union. by left.
  - apply always_subscribe.
  - intros HF Hon. unfold connected in Hon.
    destruct (kws s) as [k|] eqn:Hk; [|done].
    destruct (subscribe_to_tokens_connected s k R Hk Hon) as (k' & E & Hc' & Hs').
    subst o. rewrite E. unfold active, connected, returns, set_kws.
    cbn [final calls threw kws always_subscribed_tokens].
    rewrite Hc', Hs'. repeat split; try done. apply union_subseteq_l.
Qed.

(** When the set read from the ticker after a first
    [subscribe_to_tokens(R)] is [always_subscribed_tokens ∪ R], a second call
    with the same [R] finds both deltas empty: it makes no ticker call and
    leaves the state as it is. *)
Theorem reconcile_twice_silent s R :
  let o1 := subscribe_to_tokens s R in
  let o2 := subscribe_to_tokens (final o1) R in
  active (final o1) = always_subscribed_tokens s ∪ list_to_set R →
  calls o2 = [] ∧ threw o2 = false ∧ final o2 = final o1.
Proof.
  intros o1 o2 Hact.
  assert (Ht : active (final o1)
               = always_subscribed_tokens (final o1) ∪ list_to_set R).
  { subst o1. by rewrite always_subscribe. }
  subst o2. by rewrite (subscribe_to_tokens_at_target _ _ Ht).
Qed.

End AnyTicker.

(** A ticker without the attribute [subscriptions] is never asked to drop a
    token, and every call subscribes the whole target again. *)
Lemma blind_never_unsubscribes (s : state blind) (k : blind) (R : list Z) :
  kws s = Some k → blind_connected k = true →
  always_subscribed_tokens s ∪ list_to_set R ≠ ∅ →
  calls (subscribe_to_tokens s R)
  = [CSubscribe (elements (always_subscribed_tokens s ∪ list_to_set R));
     CSetModeFull (elements (always_subscribed_tokens s ∪ list_to_set R))].
Proof.
  intros Hk Hc Hne. unfold subscribe_to_tokens. rewrite Hk. simpl. rewrite Hc.
  unfold current_subscriptions. simpl.
  rewrite difference_empty_L, empty_difference_L, elements_empty.
  destruct (elements _) as [|x l] eqn:E; [|done].
  by apply elements_nil_empty in E.
Qed.

(** C3 on the code, at the scenario of the specification.  NIFTY is
    persistent; the connected ticker streams NIFTY and BANKNIFTY but has no
    attribute [subscriptions], so the [hasattr] test fails and
    [current_subscriptions] stays the empty list.  [subscribe_to_tokens([])]
    then sends no unsubscribe for BANKNIFTY and subscribes NIFTY again: the
    set the code reads is not the target [{256265}] and the ticker goes on
    streaming both tokens.  On the same scenario the branch that reads a
    dict attribute sends the unsubscribe for BANKNIFTY alone and reaches
    the target. *)
Theorem reconcile_without_attribute :
  let k := {| blind_connected := true;
              blind_streaming := {[ 256265; 260105 ]} |} in
  let s := {| store := {[ 1%positive := ∅ ]}; live_quotes := 1%positive;
              kws := Some k; access_token_ws := Some "token";
              api_key_ws := Some "key";
              always_subscribed_tokens := {[ 256265 ]} |} in
  let o := subscribe_to_tokens s [] in
  let target : gset Z := always_subscribed_tokens s ∪ list_to_set [] in
  let s' := sim_state (Some {| sim_connected := true;
                               sim_subscriptions :=
                                 {[ 256265 := "full"; 260105 := "full" ]} |}) ∅ in
  let o' := subscribe_to_tokens s' [] in
  (connected s = true ∧ threw o = false ∧
   calls o = [CSubscribe [256265]; CSetModeFull [256265]] ∧
   unsubscribed_by (calls o) = ∅ ∧
   active (final o) ≠ target ∧
   (blind_streaming <$> kws (final o)) = Some {[ 256265; 260105 ]} ∧
   (blind_streaming <$> kws (final o)) ≠ Some target) ∧
  (always_subscribed_tokens s' = always_subscribed_tokens s ∧
   connected s' = true ∧ threw o' = false ∧
   calls o' = [CUnsubscribe [260105]] ∧
   active (final o') = target).
Proof.
  split.
  - split; [reflexivity|]. split; [reflexivity|]. split; [reflexivity|].
    split; [apply (bool_decide_unpack _); vm_compute; exact I|].
    split; [|split].
    + intros E. apply (f_equal (λ X : gset Z, bool_decide (256265 ∈ X))) in E.
      vm_compute in E. discriminate E.
    + apply (f_equal Some). apply (bool_decide_unpack _). vm_compute. exact I.
    + intros E. apply (inj Some) in E.
      apply (f_equal (λ X : gset Z, bool_decide (260105 ∈ X))) in E.
      vm_compute in E. discriminate E.
  - split; [reflexivity|]. split; [reflexivity|]. split; [reflexivity|].
    split; [vm_compute; reflexivity|].
    apply (bool_decide_unpack _). vm_compute. exact I.
Qed.

(** C4 on the code.  NIFTY is persistent and streaming on a connected ticker
    without the attribute [subscriptions]; [subscribe_to_tokens([260105])]
    is called twice.  The first call returns and leaves the persistent set
    as it was, and the ticker then streams NIFTY and BANKNIFTY.  The second
    call still reads an empty [current_subscriptions]: it finds
    [tokens_to_add] to be the whole target and sends [subscribe] and
    [set_mode] for both tokens again.  On a ticker that keeps the dict
    attribute the second call sends nothing. *)
Theorem reconcile_twice_resends :
  let k := {| blind_connected := true; blind_streaming := {[ 256265 ]} |} in
  let s := {| store := {[ 1%positive := ∅ ]}; live_quotes := 1%positive;
              kws := Some k; access_token_ws := Some "token";
              api_key_ws := Some "key";
              always_subscribed_tokens := {[ 256265 ]} |} in
  let o1 := subscribe_to_tokens s [260105] in
  let o2 := subscribe_to_tokens (final o1) [260105] in
  let s' := sim_state (Some sim_online) ∅ in
  let o1' := subscribe_to_tokens s' [260105] in
  let o2' := subscribe_to_tokens (final o1') [260105] in
  (connected s = true ∧ threw o1 = false ∧
   always_subscribed_tokens (final o1) = always_subscribed_tokens s ∧
   (blind_streaming <$> kws (final o1)) = Some {[ 256265; 260105 ]} ∧
   calls o2 = [CSubscribe [256265; 260105]; CSetModeFull [256265; 260105]] ∧
   subscribed_by (calls o2) = {[ 256265; 260105 ]} ∧
   threw o2 = false) ∧
  (always_subscribed_tokens s' = always_subscribed_tokens s ∧
   connected s' = true ∧
   calls o1' = [CSubscribe [260105]; CSetModeFull [260105]] ∧
   calls o2' = [] ∧ threw o2' = false).
Proof.
  split.
  - split; [reflexivity|]. split; [reflexivity|]. split; [reflexivity|].
    split; [apply (f_equal Some), (bool_decide_unpack _); vm_compute; exact I|].
    split; [vm_compute; reflexivity|].
    split; [apply (bool_decide_unpack _); vm_compute; exact I|].
    vm_compute. reflexivity.
  - split; [reflexivity|]. split; [reflexivity|].
    split; [vm_compute; reflexivity|].
    split; vm_compute; reflexivity.
Qed.

(** The dict branch at work: NIFTY persistent and streaming on the
    reference ticker, BANKNIFTY requested. *)
Lemma reconcile_reaches_target_witness :
  let o := subscribe_to_tokens (sim_state (Some sim_online) ∅) [260105] in
  threw o = false ∧
  connected (final o) = true ∧
  active (final o) = {[ 256265 ]} ∪ list_to_set [260105] ∧
  {[ 256265 ]} ⊆ active (final o).
Proof.
  apply (reconcile_reaches_target (sim_state (Some sim_online) ∅) [260105]);
    [exact sim_faithful | reflexivity].
Defined.

(** The same state, called twice. *)
Lemma reconcile_twice_silent_witness :
  let o1 := subscribe_to_tokens (sim_state (Some sim_online) ∅) [260105] in
  let o2 := subscribe_to_tokens (final o1) [260105] in
  calls o2 = [] ∧ threw o2 = false ∧ final o2 = final o1.
Proof.
  apply (reconcile_twice_silent (sim_state (Some sim_online) ∅) [260105]).
  vm_compute. reflexivity.
Defined.

(** ** Reconciliation while not connected *)

Section Offline.
Context {T : Type} `{Ticker T}.
Implicit Types (s : state T) (ws : T) (R : list Z).

Lemma subscribed_by_pair (l : list Z) :
  subscribed_by [CSubscribe l; CSetModeFull l] = list_to_set l.
Proof.
  unfold subscribed_by. simpl. by rewrite !union_empty_r_L.
Qed.

Lemma subscribed_by_single (l : list Z) :
  subscribed_by [CSubscribe l] = list_to_set l.
Proof.
  unfold subscribed_by. simpl. by rewrite !union_empty_r_L.
Qed.

(** [on_connect] asks for the persistent tokens and for nothing else. *)
Lemma on_connect_subscribes_always s ws :
  subscribed_by (on_connect s ws).1.2 = always_subscribed_tokens s.
Proof.
  unfold on_connect.
  destruct (elements (always_subscribed_tokens s)) as [|x l] eqn:E.
  - apply elements_nil_empty in E. by rewrite E.
  - rewrite <- (list_to_set_elements_L (always_subscribed_tokens s)), E.
    destruct (subscribe ws (x :: l)) as [ws1|ws1]; simpl.
    + destruct (set_mode_full ws1 (x :: l)); simpl; apply subscribed_by_pair.
    + apply subscribed_by_single.
Qed.

(** C2, as the code has it.  When no connected ticker is bound,
    [subscribe_to_tokens] changes nothing and makes no call: the request is
    not kept anywhere, and the next [on_connect] subscribes the persistent
    tokens only. *)
Theorem reconcile_offline_forgets s R :
  connected s = false →
  let o := subscribe_to_tokens s R in
  final o = s ∧ calls o = [] ∧ threw o = false ∧
  ∀ ws, subscribed_by (on_connect (final o) ws).1.2 = always_subscribed_tokens s.
Proof.
  intros Hoff o.
  assert (E : o = returns s []).
  { subst o. unfold subscribe_to_tokens, connected in *.
    destruct (kws s) as [k|]; [|done]. by rewrite Hoff. }
  rewrite E. simpl. repeat split; try done.
  intros ws. apply on_connect_subscribes_always.
Qed.

End Offline.

(** Counterexample to C2 as stated: BANKNIFTY is requested while the ticker
    is still connecting; the module state is exactly what it was, and when
    the ticker connects [on_connect] does not subscribe the recorded target
    [{256265, 260105}]. *)
Lemma reconcile_offline_counterexample :
  let s0 := sim_state (Some sim_offline) ∅ in
  let o := subscribe_to_tokens s0 [260105] in
  let target := always_subscribed_tokens s0 ∪ list_to_set [260105] in
  connected s0 = false ∧ final o = s0 ∧
  subscribed_by
    (on_connect (final o) {| sim_connected := true; sim_subscriptions := ∅ |}).1.2
    ≠ target.
Proof.
  split; [reflexivity|]. split; [reflexivity|].
  intros E.
  apply (f_equal (λ X : gset Z, bool_decide (260105 ∈ X))) in E.
  vm_compute in E. discriminate E.
Qed.

(** Witness of the amended C2. *)
Lemma reconcile_offline_forgets_witness :
  let o := subscribe_to_tokens (sim_state (Some sim_offline) ∅) [260105] in
  final o = sim_state (Some sim_offline) ∅ ∧ calls o = [] ∧ threw o = false ∧
  ∀ ws, subscribed_by (on_connect (final o) ws).1.2 = {[ 256265 ]}.
Proof.
  apply (reconcile_offline_forgets (sim_state (Some sim_offline) ∅) [260105]).
  reflexivity.
Defined.

(** ** The quote cache *)

Section Cache.
Context {T : Type} `{Ticker T}.
Implicit Types (s : state T) (d : gmap Z quote).

Lemma cache_on_ticks s ticks :
  cache (on_ticks s ticks) = foldl on_tick (cache s) ticks.
Proof.
  unfold cache at 1, deref, on_ticks. simpl. by rewrite lookup_insert_eq.
Qed.

Lemma cache_clear s : cache (clear_live_quotes s) = ∅.
Proof.
  unfold cache, deref, clear_live_quotes. simpl. by rewrite lookup_insert_eq.
Qed.

(** An object that is no longer (or not) named by [live_quotes] is not
    touched by [clear_live_quotes]. *)
Lemma deref_clear s r : deref (clear_live_quotes s) r = deref s r.
Proof.
  unfold deref, clear_live_quotes. simpl.
  destruct (decide (fresh (dom (store s)) = r)) as [<-|Hne].
  - rewrite lookup_insert_eq.
    pose proof (is_fresh (dom (store s))) as Hf.
    apply not_elem_of_dom in Hf. by rewrite Hf.
  - by rewrite lookup_insert_ne.
Qed.

Lemma on_tick_rejected d t now :
  accepted (t, now) = false → on_tick d (t, now) = d.
Proof. unfold accepted, on_tick. simpl. by intros ->. Qed.

Lemma on_tick_accepted d t now tok :
  t_instrument_token t = Value tok → tok ≠ 0 →
  on_tick d (t, now) = <[tok := make_quote tok t now]> d.
Proof.
  intros Ht Hnz. unfold on_tick. simpl. rewrite Ht. simpl.
  destruct (Z.eqb_spec tok 0); [contradiction | reflexivity].
Qed.

Lemma foldl_on_tick_filter d ticks :
  foldl on_tick d ticks = foldl on_tick d (List.filter accepted ticks).
Proof.
  revert d. induction ticks as [|[t now] ticks IH]; intros d; [done|].
  simpl. destruct (accepted (t, now)) eqn:Ha; simpl.
  - apply IH.
  - rewrite on_tick_rejected by done. apply IH.
Qed.

Lemma well_keyed_on_tick d tn : well_keyed d → well_keyed (on_tick d tn).
Proof.
  intros Hd. destruct tn as [t now]. unfold on_tick. simpl.
  destruct (t_instrument_token t) as [| |tok]; simpl; try done.
  destruct (Z.eqb_spec tok 0) as [|Hnz]; simpl; [done|].
  intros k q. rewrite lookup_insert.
  destruct (decide (tok = k)) as [->|Hne].
  - intros [= <-]. by split.
  - apply Hd.
Qed.

Lemma well_keyed_foldl d ticks :
  well_keyed d → well_keyed (foldl on_tick d ticks).
Proof.
  revert d. induction ticks as [|tn ticks IH]; intros d Hd; [done|].
  simpl. apply IH. by apply well_keyed_on_tick.
Qed.

(** The functions that talk to the ticker leave the store and the binding of
    [live_quotes] alone. *)
Lemma cache_start s a b i : cache (final (start_websocket s a b i)) = cache s.
Proof.
  unfold start_websocket, launch, update_always.
  destruct (_ || _); [done|]. simpl.
  destruct (kws s) as [k|]; [destruct (is_connected k); [destruct (stop k)|]|];
    simpl; destruct i as [[|? ?]|]; reflexivity.
Qed.

Lemma cache_stop s : cache (final (stop_websocket s)) = cache s.
Proof.
  unfold stop_websocket.
  destruct (kws s) as [k|]; [destruct (is_connected k); [destruct (stop k)|]|];
    reflexivity.
Qed.

Lemma cache_subscribe s R : cache (final (subscribe_to_tokens s R)) = cache s.
Proof.
  unfold subscribe_to_tokens.
  destruct (kws s) as [k|]; [|done].
  destruct (is_connected k); [|done].
  destruct (elements (current_subscriptions k ∖ _));
    destruct (elements (_ ∖ current_subscriptions k)); try reflexivity;
    destruct (subscribe _ _) as [k2|k2]; try reflexivity;
    destruct (set_mode_full k2 _); reflexivity.
Qed.

Lemma reachable_well_keyed s : reachable s → well_keyed (cache s).
Proof.
  unfold reachable. intros Hr.
  apply rtc_ind_r with (x := @init T) (P := λ s, well_keyed (cache s)) in Hr;
    [done| |].
  - unfold init, cache, deref. simpl. rewrite lookup_singleton_eq. simpl.
    intros k q Hk. by rewrite lookup_empty in Hk.
  - intros s1 s2 _ Hstep IH. destruct Hstep.
    + rewrite cache_on_ticks. by apply well_keyed_foldl.
    + rewrite cache_clear. intros k q Hk. by rewrite lookup_empty in Hk.
    + by rewrite cache_start.
    + by rewrite cache_stop.
    + by rewrite cache_subscribe.
    + done.
Qed.

(** C10. A tick whose [instrument_token] is missing, [None] or [0] leaves the
    cache as it is, so a batch acts as the batch of its accepted ticks; an
    accepted tick is filed under its own token; and in every state the module
    can reach, before and after a batch, each cache entry's key is non-zero
    and equal to the [instrument_token] of its record. *)
Theorem cache_key_is_record_token s ticks :
  reachable s →
  (∀ d t now,
     t_instrument_token t = Missing ∨ t_instrument_token t = IsNone ∨
     t_instrument_token t = Value 0 →
     on_tick d (t, now) = d) ∧
  (∀ d t now tok,
     t_instrument_token t = Value tok → tok ≠ 0 →
     on_tick d (t, now) = <[tok := make_quote tok t now]> d ∧
     instrument_token (make_quote tok t now) = tok) ∧
  cache (on_ticks s ticks) = cache (on_ticks s (List.filter accepted ticks)) ∧
  well_keyed (cache s) ∧
  well_keyed (cache (on_ticks s ticks)).
Proof.
  intros Hr. split; [|split; [|split; [|split]]].
  - intros d t now Hbad. apply on_tick_rejected. unfold accepted. simpl.
    destruct Hbad as [-> | [-> | ->]]; reflexivity.
  - intros d t now tok Ht Hnz. split; [by apply on_tick_accepted | reflexivity].
  - rewrite !cache_on_ticks. apply foldl_on_tick_filter.
  - by apply reachable_well_keyed.
  - rewrite cache_on_ticks. apply well_keyed_foldl. by apply reachable_well_keyed.
Qed.

(** C5, as the code has it.  [get_all_live_quotes] returns the cache object
    itself: after later ticks the mapping it returned reads as the updated
    cache.  Only [clear_live_quotes], which rebinds the name, leaves the
    returned object as it was. *)
Theorem snapshot_is_live_view s ticks :
  let snap := get_all_live_quotes s in
  deref (on_ticks s ticks) snap = foldl on_tick (deref s snap) ticks ∧
  deref (on_ticks s ticks) snap = cache (on_ticks s ticks) ∧
  deref (clear_live_quotes s) snap = deref s snap.
Proof.
  intros snap. subst snap. unfold get_all_live_quotes. repeat split.
  - apply cache_on_ticks.
  - apply deref_clear.
Qed.

(** C6, as the code has it.  [stop_websocket] leaves every cached quote in
    place; it is the [clear_live_quotes] which callers run next that empties
    the cache.  It empties the persistent set whenever a ticker was bound and
    its [stop] did not raise, and then unbinds the ticker. *)
Theorem stop_then_clear s tok :
  let o := stop_websocket s in
  get_live_quote (final o) tok = get_live_quote s tok ∧
  get_live_quote (clear_live_quotes (final o)) tok = None ∧
  always_subscribed_tokens (final o) =
    match kws s with
    | Some _ => if threw o then always_subscribed_tokens s else ∅
    | None => always_subscribed_tokens s
    end ∧
  (if threw o then is_Some (kws (final o)) else kws (final o) = None).
Proof.
  intros o. subst o. unfold get_live_quote.
  rewrite cache_stop, cache_clear, lookup_empty.
  repeat split; unfold stop_websocket;
    (destruct (kws s) as [k|] eqn:Ek;
       [destruct (is_connected k); [destruct (stop k)|]|]); simpl; eauto.
Qed.

End Cache.

(** Witness of C10: the state reached from the initial one by a batch holding
    a NIFTY tick. *)
Lemma cache_key_is_record_token_witness :
  well_keyed (cache (on_ticks (on_ticks (@init sim) [(nifty_tick, 0%Q)]) [])).
Proof.
  apply (cache_key_is_record_token
           (on_ticks (@init sim) [(nifty_tick, 0%Q)]) []).
  eapply rtc_l; [apply step_ticks | apply rtc_refl].
Defined.

(** Counterexample to C5 as stated: the mapping returned before the NIFTY
    tick has no entry for 256265 when it is returned and has one after the
    tick arrives. *)
Lemma snapshot_counterexample :
  let s0 := sim_state (Some sim_online) ∅ in
  let snap := get_all_live_quotes s0 in
  let s1 := on_ticks s0 [(nifty_tick, 0%Q)] in
  deref s0 snap !! 256265 = None ∧
  deref s1 snap !! 256265 = Some (make_quote 256265 nifty_tick 0%Q) ∧
  deref s1 snap ≠ deref s0 snap.
Proof.
  split; [reflexivity|]. split; [reflexivity|].
  intros E. apply (f_equal (λ d : gmap Z quote, d !! 256265)) in E.
  vm_compute in E. discriminate E.
Qed.

(** Counterexample to C6 as stated: NIFTY is cached, the connected ticker is
    stopped, and [get_live_quote(256265)] still returns the cached quote. *)
Lemma stop_counterexample :
  let s0 := on_ticks (sim_state (Some sim_online) ∅) [(nifty_tick, 0%Q)] in
  let o := stop_websocket s0 in
  threw o = false ∧ calls o = [CStop] ∧
  get_live_quote (final o) 256265 = Some (make_quote 256265 nifty_tick 0%Q).
Proof. repeat split; reflexivity. Qed.

(** ** Starting over a live connection *)

Section Start.
Context {T : Type} `{Ticker T}.
Implicit Types (s : state T) (k : T).

Lemma update_always_grows s i :
  always_subscribed_tokens s ⊆ always_subscribed_tokens (update_always s i).
Proof.
  destruct i as [[|x l]|]; simpl; try done. apply union_subseteq_l.
Qed.

Lemma update_always_kws s i : kws (update_always s i) = kws s.
Proof. by destruct i as [[|x l]|]. Qed.

(** C7, as the code has it.  With both credentials given, [start_websocket]
    over a bound ticker is not a no-op.  If the ticker is connected it is
    stopped first; if it is only connecting it is dropped without a stop.
    Then (unless the stop raised) a new [KiteTicker] is bound, the
    [initial_tokens] are added to the persistent set, which never shrinks,
    and a new connect thread is started.  The quote cache is not touched.
    With a credential missing only the stored credentials change. *)
Theorem start_over_bound_ticker s k a t i :
  kws s = Some k →
  let o := start_websocket s a t i in
  let s' := update_always
              (set_kws (set_credentials s a t) (Some (KiteTicker a t))) i in
  (truthy_str a = true → truthy_str t = true →
     o = (if is_connected k then
            match stop k with
            | Ok _ => returns s' [CStop; CNew a t; Spawn]
            | Raise k' => throws (set_kws (set_credentials s a t) (Some k')) [CStop]
            end
          else returns s' [CNew a t; Spawn]) ∧
     kws s' = Some (KiteTicker a t) ∧
     always_subscribed_tokens s ⊆ always_subscribed_tokens s') ∧
  (truthy_str a = false ∨ truthy_str t = false →
     o = returns (set_credentials s a t) []) ∧
  cache (final o) = cache s.
Proof.
  intros Hk o s'. split; [|split].
  - intros Ha Ht. split; [|split].
    + subst o s'. unfold start_websocket. rewrite Ha, Ht. simpl. rewrite Hk.
      destruct (is_connected k); [destruct (stop k)|]; reflexivity.
    + subst s'. by rewrite update_always_kws.
    + subst s'. apply (update_always_grows (set_kws (set_credentials s a t) _)).
  - intros Hmiss. subst o. unfold start_websocket.
    destruct Hmiss as [-> | ->]; simpl; [done|].
    by rewrite orb_true_r.
  - apply cache_start.
Qed.

End Start.

(** Counterexample to C7 as stated: NIFTY is streaming on a connected ticker
    and [start_websocket] is called again with valid credentials.  The
    running ticker is stopped, [kws] is bound to a new, unconnected instance
    without subscriptions, and the persistent set has grown. *)
Lemma start_counterexample :
  let s0 := sim_state (Some sim_online) ∅ in
  let o := start_websocket s0 (Some "key") (Some "token") (Some [260105]) in
  connected s0 = true ∧
  calls o = [CStop; CNew (Some "key") (Some "token"); Spawn] ∧
  kws (final o) = Some sim_offline ∧
  kws (final o) ≠ kws s0 ∧
  connected (final o) = false ∧
  always_subscribed_tokens (final o) ≠ always_subscribed_tokens s0.
Proof.
  repeat split; try reflexivity.
  - intros E. vm_compute in E. discriminate E.
  - intros E.
    apply (f_equal (λ X : gset Z, bool_decide (260105 ∈ X))) in E.
    vm_compute in E. discriminate E.
Qed.

(** Witness of the amended C7 on the same call. *)
Lemma start_over_bound_ticker_witness :
  let s0 := sim_state (Some sim_online) ∅ in
  let o := start_websocket s0 (Some "key") (Some "token") (Some [260105]) in
  let s' := update_always
              (set_kws (set_credentials s0 (Some "key") (Some "token"))
                 (Some sim_offline)) (Some [260105]) in
  o = returns s' [CStop; CNew (Some "key") (Some "token"); Spawn] ∧
  kws s' = Some sim_offline ∧
  always_subscribed_tokens s0 ⊆ always_subscribed_tokens s'.
Proof.
  exact (proj1 (start_over_bound_ticker (sim_state (Some sim_online) ∅)
                  sim_online (Some "key") (Some "token") (Some [260105])
                  eq_refl) eq_refl eq_refl).
Defined.

End KiteWSFacts.

(* ================================================================== *)
(** * Properties of the strike window *)

Module OptionChainFacts.
Import KiteWS OptionChain.

(** ** The strike list *)

Lemma Forall_insert_strike (P : Q → Prop) x l :
  P x → Forall P l → Forall P (insert_strike x l).
Proof.
  intros Hx Hl. induction Hl as [|y l Hy Hl IH]; cbn [insert_strike].
  - by constructor.
  - destruct (x ?= y)%Q; repeat constructor; done.
Qed.

Lemma insert_strike_sorted x l :
  StronglySorted Qlt l → StronglySorted Qlt (insert_strike x l).
Proof.
  induction 1 as [|y l Hs IH Hy]; cbn [insert_strike].
  - repeat constructor.
  - destruct (x ?= y)%Q eqn:E.
    + by constructor.
    + apply Qlt_alt in E. constructor; [by constructor|].
      constructor; [done|].
      eapply Forall_impl; [exact Hy|]. intros z Hz. by eapply Qlt_trans.
    + apply Qgt_alt in E. constructor; [done|].
      by apply Forall_insert_strike.
Qed.

(** [strikes] is strictly ascending, whatever the order of the rows. *)
Lemma sorted_unique_sorted l : StronglySorted Qlt (sorted_unique l).
Proof.
  induction l as [|x l IH]; cbn [sorted_unique foldr].
  - constructor.
  - by apply insert_strike_sorted.
Qed.

(** ** Finding the ATM strike *)

Lemma index_of_Some x l i :
  index_of x l = Some i → ∃ y, l !! i = Some y ∧ (y == x)%Q.
Proof.
  revert i. induction l as [|y l IH]; intros i; simpl; [done|].
  destruct (Qeq_bool y x) eqn:E.
  - intros [= <-]. exists y. split; [done|]. by apply Qeq_bool_iff.
  - destruct (index_of x l) as [j|]; [|done].
    intros [= <-]. destruct (IH j eq_refl) as (z & Hz & Hzx). by exists z.
Qed.



(** ** The window around the ATM index *)

Section Window.
Context {A : Type}.
Implicit Types (l : list A).

Lemma length_py_slice l a b :
  0 ≤ a →
  Z.of_nat (length (py_slice l a b))
  = Z.max 0 (Z.min (b - a) (Z.of_nat (length l) - a)).
Proof.
  intros Ha. unfold py_slice. rewrite length_take, length_drop. lia.
Qed.

Lemma elem_py_slice l a b i x :
  l !! i = Some x → 0 ≤ a → a ≤ Z.of_nat i → Z.of_nat i < b →
  x ∈ py_slice l a b.
Proof.
  intros Hx Ha Hlo Hhi. unfold py_slice. apply elem_of_take.
  exists (i - Z.to_nat a)%nat. split; [|lia].
  rewrite lookup_drop. rewrite <- Hx. f_equal. lia.
Qed.

End Window.

Ltac window_cases :=
  repeat match goal with
    | |- context [ (?a <? ?b) ] => destruct (Z.ltb_spec a b)
    | |- context [ (?a <=? ?b) ] => destruct (Z.leb_spec a b)
    end.

(** Size of the window: the full [2n+1] when the list is long enough;
    otherwise everything up to [n] strikes above the ATM. *)
Lemma window_length (strikes : list Q) (idx : nat) (n : Z) :
  0 ≤ n → (idx < length strikes)%nat →
  Z.of_nat (length (window strikes idx n))
  = if 2 * n + 1 <=? Z.of_nat (length strikes) then 2 * n + 1
    else Z.min (Z.of_nat (length strikes)) (Z.of_nat idx + n + 1).
Proof.
  intros Hn Hidx. unfold window.
  destruct (Z.ltb_spec
              (Z.min (Z.of_nat (length strikes)) (Z.of_nat idx + n + 1)
               - Z.max 0 (Z.of_nat idx - n)) (2 * n + 1));
    rewrite !length_py_slice by lia;
    window_cases; cbn [andb]; rewrite ?length_py_slice by lia; lia.
Qed.

Lemma window_elem (strikes : list Q) (idx : nat) (n : Z) (a : Q) :
  0 ≤ n → strikes !! idx = Some a → a ∈ window strikes idx n.
Proof.
  intros Hn Ha. pose proof (lookup_lt_Some _ _ _ Ha) as Hidx. unfold window.
  destruct (Z.ltb_spec
              (Z.min (Z.of_nat (length strikes)) (Z.of_nat idx + n + 1)
               - Z.max 0 (Z.of_nat idx - n)) (2 * n + 1));
    rewrite !length_py_slice by lia;
    window_cases; cbn [andb]; apply (elem_py_slice _ _ _ idx); try done; lia.
Qed.

(** What holds of C9: with at least [2n+1] strikes the window has exactly
    [2n+1] of them and contains the ATM strike. *)
Lemma window_exact_when_enough (strikes : list Q) (idx : nat) (n : Z) (a : Q) :
  0 ≤ n → 2 * n + 1 ≤ Z.of_nat (length strikes) → strikes !! idx = Some a →
  Z.of_nat (length (window strikes idx n)) = 2 * n + 1 ∧
  a ∈ window strikes idx n.
Proof.
  intros Hn Hlen Ha. split; [|by apply window_elem].
  rewrite window_length by (try done; by eapply lookup_lt_Some).
  destruct (Z.leb_spec (2 * n + 1) (Z.of_nat (length strikes))); lia.
Qed.

Lemma window_otm_zero (strikes : list Q) (idx : nat) (a : Q) :
  strikes !! idx = Some a → window strikes idx 0 = [a].
Proof.
  intros Ha. pose proof (lookup_lt_Some _ _ _ Ha) as Hidx.
  destruct (window_exact_when_enough strikes idx 0 a) as [Hl Hin];
    [lia | lia | done |].
  destruct (window strikes idx 0) as [|x [|y w]]; simpl in Hl; try lia.
  apply list_elem_of_singleton in Hin. by subst.
Qed.

Lemma window_five_of_twenty (strikes : list Q) (idx : nat) :
  length strikes = 20%nat → (idx < 20)%nat →
  length (window strikes idx 5) = 11%nat.
Proof.
  intros Hlen Hidx.
  pose proof (window_length strikes idx 5) as Hw.
  rewrite Hlen in Hw. simpl in Hw. lia.
Qed.

(** C9 fails on the code.  NIFTY trades at 24853, the expiry lists the four
    strikes 24850, 24900, 24950, 25000 and two strikes are requested on each
    side.  The ATM strike 24850 is the lowest strike; the callback displays
    three strikes, although [min(2*2+1, 4) = 4] are available. *)
Theorem window_short_list_truncated :
  let ws := on_ticks (sim_state (Some sim_online) ∅) [(nifty_tick, 0%Q)] in
  let rows := ce_pe 1000 24850 ++ ce_pe 1002 24900 ++ ce_pe 1004 24950
              ++ ce_pe 1006 25000 in
  let strikes := sorted_unique (map row_strike rows) in
  strikes = strikes_of [24850; 24900; 24950; 25000] ∧
  locate_atm strikes (24853 # 1) 50 = Some (inject_Z 24850, 0%nat) ∧
  window strikes 0 2 = strikes_of [24850; 24900; 24950] ∧
  Z.min (2 * 2 + 1) (Z.of_nat (length strikes)) = 4 ∧
  ∃ o, plot_option_chain (nifty_request (Some 2)) (λ _, ws) ws RestRaises rows
       = Chain (strikes_of [24850; 24900; 24950]) (Some (24853 # 1)) o.
Proof.
  repeat split; try reflexivity.
  eexists. vm_compute. reflexivity.
Qed.

(** ** No reference price *)

Lemma normalize_otm_nonneg o : 0 ≤ normalize_otm o.
Proof.
  unfold normalize_otm. destruct o as [n|]; [|lia].
  destruct (Z.ltb_spec n 0); lia.
Qed.

Lemma insert_strike_cons x l : ∃ y l', insert_strike x l = y :: l'.
Proof.
  destruct l as [|z l]; simpl; [by eexists _, _|].
  destruct (x ?= z)%Q; by eexists _, _.
Qed.

Lemma sorted_unique_cons x l : ∃ y l', sorted_unique (x :: l) = y :: l'.
Proof. unfold sorted_unique. simpl. apply insert_strike_cons. Qed.

Lemma first_strikes_cons (x : Q) (l : list Q) (n : Z) :
  0 ≤ n →
  ∃ z w, take (Z.to_nat (Z.min (Z.of_nat (length (x :: l))) (2 * n + 1)))
              (x :: l) = z :: w.
Proof.
  intros Hn.
  assert (Hm : ∃ m, Z.to_nat (Z.min (Z.of_nat (length (x :: l))) (2 * n + 1))
                    = S m).
  { exists (Z.to_nat (Z.min (Z.of_nat (length (x :: l))) (2 * n + 1)) - 1)%nat.
    cbn [length]. lia. }
  destruct Hm as [m ->]. by eexists _, _.
Qed.

(** Without a reference price the fallback takes the head of the list. *)
Lemma select_without_price (x : Q) (l : list Q) (step n : Z) :
  select_display_strikes (x :: l) None step n
  = Some (take (Z.to_nat (Z.min (Z.of_nat (length (x :: l))) (2 * n + 1)))
               (x :: l)).
Proof.
  unfold select_display_strikes, py_slice. by rewrite Z.sub_0_r.
Qed.

Section NoPrice.
Context {T : Type} `{Ticker T}.

Lemma poll_ltp_all_missed (ws_at : nat → state T) tok attempt retries :
  (∀ i, (attempt ≤ i < attempt + retries)%nat →
        get_live_quote (ws_at i) tok = None) →
  poll_ltp ws_at tok attempt retries = None.
Proof.
  revert attempt. induction retries as [|r IH]; intros attempt Hmiss; [done|].
  simpl. rewrite Hmiss by lia. apply IH. intros i Hi. apply Hmiss. lia.
Qed.

(** C1, as the code has it, up to and including the subscription call.
    When the three polls of the cache find no quote for the underlying and
    the REST call raises or has no entry for it, the callback does not
    report a missing reference price.  If the expiry has no options it
    reports that; otherwise [display_strikes] is the first [min(len, 2n+1)]
    strikes of the sorted strike list, which is at least one strike, and
    [subscribe_to_tokens] is called for their options.  If that call raises
    the callback ends in its error return; if it returns, the table code is
    entered with these strikes ([Chain]).  What the table code then does is
    outside this statement: it runs in the same [try] block and may itself
    end in the error return.  A price the REST call does return is taken as
    the reference price whatever its sign. *)
Theorem no_price_shows_first_strikes (req : request)
    (ws_at : nat → state T) (ws_sub : state T) (reply : rest_reply)
    (rows : list option_row) (details : index_details) :
  passes_guards req = true →
  assoc_get (upper (default EmptyString (underlying_symbol req)))
    INDEX_INSTRUMENT_DETAILS = Some details →
  (∀ i, (i < 3)%nat → get_live_quote (ws_at i) (index_token details) = None) →
  reply = RestRaises ∨ reply = RestNoEntry →
  let n := normalize_otm (num_otm_strikes req) in
  let strikes := sorted_unique (map row_strike rows) in
  let shown :=
    take (Z.to_nat (Z.min (Z.of_nat (length strikes)) (2 * n + 1))) strikes in
  let o := subscribe_to_tokens ws_sub (instruments_to_subscribe rows shown) in
  plot_option_chain req ws_at ws_sub reply rows
  = match rows with
    | [] => NoOptions
    | _ => if threw o then Failed else Chain shown None o
    end ∧
  match rows with [] => True | _ => shown ≠ [] end ∧
  ∀ p, with_rest_fallback None (RestQuote p) = Some p.
Proof.
  intros Hg Hidx Hmiss Hrest n strikes shown o.
  pose proof (normalize_otm_nonneg (num_otm_strikes req)) as Hn. fold n in Hn.
  assert (Hshown : rows ≠ [] →
            select_display_strikes strikes None (strike_step details) n
              = Some shown ∧ ∃ z w, shown = z :: w).
  { intros Hrows. subst shown strikes.
    destruct rows as [|r rows]; [done|]. cbn [map].
    destruct (sorted_unique_cons (row_strike r) (map row_strike rows))
      as (y & l' & ->).
    split; [by apply select_without_price | by apply first_strikes_cons]. }
  split; [|split; [|done]].
  - unfold passes_guards in Hg. repeat (apply andb_prop in Hg as [Hg ?]).
    assert (Hltp : with_rest_fallback
                     (poll_ltp ws_at (index_token details) 0 3) reply = None).
    { rewrite poll_ltp_all_missed by (intros i Hi; apply Hmiss; lia).
      by destruct Hrest as [-> | ->]. }
    unfold plot_option_chain.
    repeat match goal with
      | E : _ = true |- _ => rewrite E; clear E
      | E : negb _ = true |- _ => apply negb_true_iff in E; rewrite E; clear E
      end.
    cbn [negb orb]. rewrite Hidx, Hltp. fold n strikes.
    destruct rows as [|r rows]; [done|].
    destruct Hshown as (-> & z & w & Ez); [done|].
    fold o. by rewrite Ez.
  - destruct rows as [|r rows]; [done|].
    destruct Hshown as (_ & z & w & ->); done.
Qed.

End NoPrice.

(** Counterexample to C1 as stated: the cache is empty at every poll, the
    REST call raises, and the callback still selects the three lowest of the
    four strikes of the expiry, subscribes their options and enters the
    table code with them. *)
Lemma no_price_counterexample :
  let ws := sim_state (Some sim_online) ∅ in
  let rows := ce_pe 1000 24850 ++ ce_pe 1002 24900 ++ ce_pe 1004 24950
              ++ ce_pe 1006 25000 in
  get_live_quote ws 256265 = None ∧
  ∃ o, plot_option_chain (nifty_request (Some 1)) (λ _, ws) ws RestRaises rows
       = Chain (strikes_of [24850; 24900; 24950]) None o ∧
       subscribed_by (calls o)
       = list_to_set (index_tokens ++ [1000; 1002; 1004; 1001; 1003; 1005])
         ∖ {[ 256265 ]}.
Proof.
  split; [done|].
  eexists. split; [vm_compute; reflexivity|].
  apply (bool_decide_unpack _). vm_compute. exact I.
Qed.

(** Witness of the amended C1 on the same input. *)
Lemma no_price_shows_first_strikes_witness :
  let ws := sim_state (Some sim_online) ∅ in
  let rows := ce_pe 1000 24850 ++ ce_pe 1002 24900 ++ ce_pe 1004 24950
              ++ ce_pe 1006 25000 in
  take (Z.to_nat (Z.min (Z.of_nat (length
          (sorted_unique (map row_strike rows))))
          (2 * normalize_otm (Some 1) + 1)))
       (sorted_unique (map row_strike rows)) ≠ [].
Proof.
  apply (no_price_shows_first_strikes (nifty_request (Some 1))
           (λ _, sim_state (Some sim_online) ∅)
           (sim_state (Some sim_online) ∅) RestRaises
           (ce_pe 1000 24850 ++ ce_pe 1002 24900 ++ ce_pe 1004 24950
            ++ ce_pe 1006 25000)
           {| index_token := 256265; strike_step := 50 |});
    [reflexivity | reflexivity | intros; reflexivity | by left].
Defined.

End OptionChainFacts.

(* ================================================================== *)
(** * Properties of the ATM strike on doubles *)

Module PyFloatFacts.
Import OptionChain PyFloat.

(** ** The order of doubles *)

(** [SFcompare] is the lexicographic comparison of ranks. *)
Lemma SFcompare_rank x y :
  SFcompare x y =
  match rank x, rank y with
  | Some a, Some b =>
      Some (match a.1.1 ?= b.1.1 with
            | Eq => match a.1.2 ?= b.1.2 with
                    | Eq => a.2 ?= b.2
                    | c => c
                    end
            | c => c
            end)
  | _, _ => None
  end.
Proof.
  destruct x as [sx|sx| |sx mx ex], y as [sy|sy| |sy my ey]; cbn;
    try destruct sx; try destruct sy; cbn; try reflexivity.
  rewrite Z.compare_opp.
  change (PosDef.Pos.compare_cont Eq mx my) with (Pos.compare mx my).
  rewrite (Z.compare_antisym ex ey).
  destruct (ex ?= ey); reflexivity.
Qed.

Lemma ltb_below x y : (x <? y)%float = true ↔ below x y.
Proof.
  rewrite ltb_spec. unfold SFltb, below. rewrite SFcompare_rank.
  destruct (rank (Prim2SF x)) as [[[a1 a2] a3]|],
           (rank (Prim2SF y)) as [[[b1 b2] b3]|]; cbn; try (split; [done|tauto]).
  unfold lex_lt. cbn.
  destruct (Z.compare_spec a1 b1), (Z.compare_spec a2 b2), (Z.compare_spec a3 b3);
    split; intros; try done; try lia.
Qed.

Lemma leb_at_most x y : (x <=? y)%float = true ↔ at_most x y.
Proof.
  rewrite leb_spec. unfold SFleb, at_most. rewrite SFcompare_rank.
  destruct (rank (Prim2SF x)) as [[[a1 a2] a3]|],
           (rank (Prim2SF y)) as [[[b1 b2] b3]|]; cbn; try (split; [done|tauto]).
  unfold lex_lt. cbn.
  destruct (Z.compare_spec a1 b1), (Z.compare_spec a2 b2), (Z.compare_spec a3 b3);
    split; intros; try done; try lia.
Qed.

(** Turns comparisons of doubles into linear arithmetic on their ranks. *)
Ltac float_order :=
  repeat match goal with
    | H : (_ <? _)%float = true |- _ => apply ltb_below in H
    | H : (_ <? _)%float = false |- _ =>
        apply not_true_iff_false in H; rewrite ltb_below in H
    | H : (_ <=? _)%float = true |- _ => apply leb_at_most in H
    | H : (_ <=? _)%float = false |- _ =>
        apply not_true_iff_false in H; rewrite leb_at_most in H
    | |- (_ <? _)%float = false =>
        apply not_true_iff_false; rewrite ltb_below; intros ?
    | |- (_ <=? _)%float = false =>
        apply not_true_iff_false; rewrite leb_at_most; intros ?
    | |- (_ <? _)%float = true => apply ltb_below
    | |- (_ <=? _)%float = true => apply leb_at_most
    end;
  unfold below, at_most, lex_lt in *;
  repeat match goal with
    | H : context [rank (Prim2SF ?x)] |- _ =>
        destruct (rank (Prim2SF x)) as [[[? ?] ?]|]
    | |- context [rank (Prim2SF ?x)] =>
        destruct (rank (Prim2SF x)) as [[[? ?] ?]|]
    end;
  cbn [fst snd] in *; try tauto; try lia.

Lemma same_refl x : same x x = true.
Proof. unfold same, is_nan. by destruct (x =? x)%float. Qed.

(** ** [min] with the distance as key *)

(** [min] returns its first candidate or an element strictly closer. *)
Lemma min_from_best p best l :
  min_from p best l = best ∨
  (distance p (min_from p best l) <? distance p best)%float = true.
Proof.
  revert best. induction l as [|x l IH]; intros best; cbn [min_from]; [by left|].
  destruct (distance p x <? distance p best)%float eqn:E.
  - right. destruct (IH x) as [-> | Hlt]; [exact E|]. float_order.
  - apply IH.
Qed.

(** No element has a key below the key of the result, and every element
    before the result has a key that is not at most the key of the result:
    [min] returns the first element of least key. *)
Lemma min_from_spec p best l :
  let m := min_from p best l in
  (∀ y, y ∈ best :: l → (distance p y <? distance p m)%float = false) ∧
  ∃ pre post, best :: l = pre ++ m :: post ∧
    ∀ y, y ∈ pre → (distance p y <=? distance p m)%float = false.
Proof.
  revert best. induction l as [|x l IH]; intros best; cbn [min_from].
  - split.
    + intros y ->%list_elem_of_singleton. float_order.
    + exists [], []. split; [done|]. by intros y ?%elem_of_nil.
  - destruct (distance p x <? distance p best)%float eqn:E.
    + destruct (IH x) as (Hmin & pre & post & Hdec & Hpre).
      set (m := min_from p x l) in *.
      assert (Hx : (distance p x <? distance p m)%float = false).
      { apply Hmin, list_elem_of_here. }
      assert (Hb : (distance p best <=? distance p m)%float = false).
      { destruct pre as [|z pre].
        - injection Hdec as Hm _. rewrite <- Hm. clear -E. float_order.
        - injection Hdec as <- _.
          assert (Hz : (distance p x <=? distance p m)%float = false).
          { apply Hpre, list_elem_of_here. }
          clear -E Hz. float_order. }
      split.
      * intros y [->|Hy]%elem_of_cons; [|by apply Hmin].
        clear -Hb. float_order.
      * exists (best :: pre), post. split; [by rewrite Hdec|].
        intros y [->|Hy]%elem_of_cons; [exact Hb | by apply Hpre].
    + destruct (IH best) as (Hmin & pre & post & Hdec & Hpre).
      pose proof (min_from_best p best l) as Hbest.
      set (m := min_from p best l) in *.
      assert (Hx : (distance p x <? distance p m)%float = false).
      { destruct Hbest as [-> | Hlt]; [exact E|]. clear -E Hlt. float_order. }
      split.
      * intros y [->|[->|Hy]%elem_of_cons]%elem_of_cons.
        -- apply Hmin, list_elem_of_here.
        -- exact Hx.
        -- by apply Hmin, list_elem_of_further.
      * destruct pre as [|z pre].
        -- injection Hdec as Hm Hl. exists [], (x :: post).
           split; [by rewrite <- Hm, Hl|]. by intros y ?%elem_of_nil.
        -- injection Hdec as <- Hl. exists (best :: x :: pre), post.
           split; [by rewrite Hl|].
           assert (Hz : (distance p best <=? distance p m)%float = false).
           { apply Hpre, list_elem_of_here. }
           intros y [->|[->|Hy]%elem_of_cons]%elem_of_cons.
           ++ exact Hz.
           ++ destruct Hbest as [Hm | Hlt].
              ** rewrite Hm in Hz |- *. clear -Hz E. float_order.
              ** clear -E Hlt. float_order.
           ++ by apply Hpre, list_elem_of_further.
Qed.

(** ** [round] *)

(** [py_round] is the nearest integer, and the even one of the two when the
    number lies halfway between them. *)
Lemma py_round_nearest (x : Q) :
  (Qabs (x - inject_Z (py_round x)) <= 1 # 2)%Q ∧
  ((Qabs (x - inject_Z (py_round x)) == 1 # 2)%Q → Z.even (py_round x) = true).
Proof.
  pose proof (Qfloor_le x) as Hlo. pose proof (Qlt_floor x) as Hhi.
  rewrite inject_Z_plus in Hhi. change (inject_Z 1) with 1%Q in Hhi.
  unfold py_round.
  destruct (x - inject_Z (Qfloor x) ?= 1 # 2)%Q eqn:E.
  - apply Qeq_alt in E. split.
    + destruct (Z.even (Qfloor x)); [|rewrite inject_Z_plus; change (inject_Z 1) with 1%Q];
        apply Qabs_Qle_condition; split; lra.
    + intros _. destruct (Z.even (Qfloor x)) eqn:Ev; [done|].
      rewrite Z.even_add, Ev. reflexivity.
  - apply Qlt_alt in E. split.
    + apply Qabs_Qle_condition; split; lra.
    + intros Habs. exfalso. rewrite Qabs_pos in Habs by lra. lra.
  - apply Qgt_alt in E. rewrite inject_Z_plus.
    change (inject_Z 1) with 1%Q. split.
    + apply Qabs_Qle_condition; split; lra.
    + intros Habs. exfalso. rewrite Qabs_neg in Habs by lra. lra.
Qed.

(** ** [list.index] *)

Lemma index_by_Some found l i :
  index_by found l = Some i →
  ∃ x, l !! i = Some x ∧ found x = true ∧
       ∀ j y, (j < i)%nat → l !! j = Some y → found y = false.
Proof.
  revert i. induction l as [|z l IH]; intros i; cbn [index_by]; [done|].
  destruct (found z) eqn:Ez.
  - intros [= <-]. exists z. split; [done|]. split; [done|]. lia.
  - destruct (index_by found l) as [k|]; [|done]. intros [= <-].
    destruct (IH k eq_refl) as (x & Hx & Hf & Hlt).
    exists x. split; [done|]. split; [done|].
    intros [|j] y Hj; cbn; [by intros [= <-]|]. apply Hlt. lia.
Qed.

Lemma index_by_None found l y :
  index_by found l = None → y ∈ l → found y = false.
Proof.
  induction l as [|z l IH]; cbn [index_by]; [by intros _ ?%elem_of_nil|].
  destruct (found z) eqn:Ez; [done|].
  destruct (index_by found l); [done|].
  intros _ [->|Hy]%elem_of_cons; [done | by apply IH].
Qed.

Lemma index_by_elem found l y :
  y ∈ l → found y = true → is_Some (index_by found l).
Proof.
  intros Hy Hf. destruct (index_by found l) eqn:E; [done|].
  by rewrite (index_by_None _ _ _ E Hy) in Hf.
Qed.

(** ** The anchor *)

(** C8, as the code has it, in double-precision arithmetic.  For a strike
    step other than zero, a non-empty list of strikes and a price for which
    [round(current_ltp / strike_step)] is defined, the code finds an anchor
    and its index.  If some strike equals [round(current_ltp / strike_step) *
    strike_step], that int is the anchor and the index is the first
    position of a strike equal to it.  Otherwise the anchor is the result of
    [min]: a strike of the list such that no strike has a computed distance
    [abs(x - current_ltp)] below its own, and the first such (the computed
    distance of no earlier strike is at most its own); the index is the
    first position of a strike equal to it.  [round] takes a finite double
    to the nearest int, and to the even one at a tie; on nan and the
    infinities it raises.  Every step of [INDEX_INSTRUMENT_DETAILS] is
    other than zero and has a double.  Price 24853 with step 50 gives
    [round(497.06) * 50 = 24850], found at index 2 of [24750, 24800, 24850,
    24900, 24950], and the window for two strikes on each side is that
    whole list; price 24875 with step 50 gives 24900, and when the strikes
    are [24810, 24860, 24890] the anchor is 24860, the first of the two
    strikes at distance 15. *)
Theorem atm_anchor_double :
  (∀ (strikes : list float) (current_ltp : float) (strike_step : Z)
      (step : float) (n : Z),
     strike_step ≠ 0 → strikes ≠ [] →
     float_of_int strike_step = Some step →
     round (current_ltp / step)%float = Some n →
     let rounded := n * strike_step in
     ∃ a i x,
       locate_atm_double strikes current_ltp strike_step = Some (a, i) ∧
       strikes !! i = Some x ∧
       ((∃ y, y ∈ strikes ∧ eq_int rounded y = true) →
          a = AtmRounded rounded ∧ eq_int rounded x = true ∧
          ∀ j y, (j < i)%nat → strikes !! j = Some y →
                 eq_int rounded y = false) ∧
       ((∀ y, y ∈ strikes → eq_int rounded y = false) →
          ∃ m pre post,
            a = AtmNearest m ∧ strikes = pre ++ m :: post ∧
            same m x = true ∧
            (∀ y, y ∈ strikes →
               (distance current_ltp y <? distance current_ltp m)%float
               = false) ∧
            (∀ y, y ∈ pre →
               (distance current_ltp y <=? distance current_ltp m)%float
               = false))) ∧
  (∀ x q, exact x = Some q →
     round x = Some (py_round q) ∧
     (Qabs (q - inject_Z (py_round q)) <= 1 # 2)%Q ∧
     ((Qabs (q - inject_Z (py_round q)) == 1 # 2)%Q →
      Z.even (py_round q) = true)) ∧
  (round nan = None ∧ round infinity = None ∧ round neg_infinity = None) ∧
  Forall (λ kv, strike_step kv.2 ≠ 0 ∧
                is_Some (float_of_int (strike_step kv.2)))
         INDEX_INSTRUMENT_DETAILS ∧
  (round (24853 / 50)%float = Some 497 ∧
   round 497.5%float = Some 498 ∧ round 496.5%float = Some 496 ∧
   round (-0.5)%float = Some 0 ∧ round (-2.5)%float = Some (-2) ∧
   round (-2.75)%float = Some (-3)) ∧
  locate_atm_double [24750; 24800; 24850; 24900; 24950]%float 24853%float 50
  = Some (AtmRounded 24850, 2%nat) ∧
  window (strikes_of [24750; 24800; 24850; 24900; 24950]) 2 2
  = strikes_of [24750; 24800; 24850; 24900; 24950] ∧
  locate_atm_double [24810; 24860; 24890]%float 24875%float 50
  = Some (AtmNearest 24860%float, 1%nat).
Proof.
  split; [|split; [|split; [|split; [|split; [|split; [|split]]]]]].
  3: repeat split; vm_compute; reflexivity.
  3: repeat constructor; try discriminate; by eexists.
  3: repeat split; vm_compute; reflexivity.
  3-5: vm_compute; reflexivity.
  - intros strikes p strike_step step n Hstep Hne Hf Hr rounded.
    unfold locate_atm_double.
    destruct (Z.eqb_spec strike_step 0) as [|_]; [done|].
    rewrite Hf, Hr. fold rounded.
    destruct (index_by (eq_int rounded) strikes) as [i|] eqn:Ei.
    + destruct (index_by_Some _ _ _ Ei) as (x & Hx & Hfx & Hlt).
      exists (AtmRounded rounded), i, x. split; [done|]. split; [done|].
      split; [done|]. intros Hnone.
      rewrite (Hnone x) in Hfx; [done|]. by eapply list_elem_of_lookup_2.
    + destruct strikes as [|z l]; [done|].
      destruct (min_from_spec p z l) as (Hmin & pre & post & Hdec & Hpre).
      set (m := min_from p z l) in *.
      assert (Hm : m ∈ z :: l).
      { rewrite Hdec. apply elem_of_app. right. apply list_elem_of_here. }
      destruct (index_by_elem (same m) (z :: l) m Hm (same_refl m))
        as [i Ei'].
      rewrite Ei'.
      destruct (index_by_Some _ _ _ Ei') as (x & Hx & Hfx & Hlt).
      exists (AtmNearest m), i, x. split; [done|]. split; [done|]. split.
      * intros (y & Hy & Hfy). by rewrite (index_by_None _ _ _ Ei Hy) in Hfy.
      * intros _. exists m, pre, post. done.
  - intros x q Hx. unfold round. rewrite Hx. split; [done|].
    apply py_round_nearest.
Qed.

(** Witness of C8: price 24875, step 50 and the strikes 24810, 24860 and
    24890. *)
Lemma atm_anchor_double_witness :
  ∃ a i x,
    locate_atm_double [24810; 24860; 24890]%float 24875%float 50 = Some (a, i) ∧
    [24810; 24860; 24890]%float !! i = Some x ∧
    ((∃ y, y ∈ [24810; 24860; 24890]%float ∧ eq_int (498 * 50) y = true) →
       a = AtmRounded (498 * 50) ∧ eq_int (498 * 50) x = true ∧
       ∀ j y, (j < i)%nat → [24810; 24860; 24890]%float !! j = Some y →
              eq_int (498 * 50) y = false) ∧
    ((∀ y, y ∈ [24810; 24860; 24890]%float → eq_int (498 * 50) y = false) →
       ∃ m pre post,
         a = AtmNearest m ∧ [24810; 24860; 24890]%float = pre ++ m :: post ∧
         same m x = true ∧
         (∀ y, y ∈ [24810; 24860; 24890]%float →
            (distance 24875 y <? distance 24875 m)%float = false) ∧
         (∀ y, y ∈ pre →
            (distance 24875 y <=? distance 24875 m)%float = false)).
Proof.
  apply (proj1 atm_anchor_double [24810; 24860; 24890]%float 24875%float 50
           50%float 498); [lia | done | vm_compute; reflexivity
                           | vm_compute; reflexivity].
Defined.

(** Counterexample to C8 as stated.  At price 1e17 the strikes 1 and 2 both
    have the computed distance 1e17, so [min] keeps the first and the anchor
    is 1, although 2 is the nearer strike: its distance to the price is
    smaller by one. *)
Lemma atm_anchor_counterexample :
  locate_atm_double [1; 2]%float 1e17%float 50 = Some (AtmNearest 1%float, 0%nat) ∧
  distance 1e17 1 = 1e17%float ∧ distance 1e17 2 = 1e17%float ∧
  ∃ q1 q2 qp,
    exact 1 = Some q1 ∧ exact 2 = Some q2 ∧ exact 1e17 = Some qp ∧
    (q1 == 1)%Q ∧ (q2 == 2)%Q ∧ (qp == inject_Z (10 ^ 17))%Q ∧
    (Qabs (q2 - qp) < Qabs (q1 - qp))%Q.
Proof.
  split; [vm_compute; reflexivity|].
  split; [vm_compute; reflexivity|].
  split; [vm_compute; reflexivity|].
  eexists _, _, _.
  split; [vm_compute; reflexivity|].
  split; [vm_compute; reflexivity|].
  split; [vm_compute; reflexivity|].
  split; [vm_compute; reflexivity|].
  split; [vm_compute; reflexivity|].
  split; vm_compute; reflexivity.
Qed.

(** ** Ties between equally close strikes *)

Lemma locate_nearest_inv strikes p strike_step m i :
  locate_atm_double strikes p strike_step = Some (AtmNearest m, i) →
  ∃ z l, strikes = z :: l ∧ m = min_from p z l.
Proof.
  unfold locate_atm_double. destruct (strike_step =? 0); [done|].
  destruct (float_of_int strike_step) as [step|]; [|done].
  destruct (round _) as [n|]; [|done].
  destruct (index_by (eq_int _) strikes); [done|].
  destruct strikes as [|z l]; [done|].
  destruct (index_by (same _) _); [|done].
  intros [= <- _]. by exists z, l.
Qed.

(** X15. When no strike equals [round(current_ltp / strike_step) *
    strike_step], the anchor is a strike of least computed distance, and on
    a list of strikes in ascending order no strike whose computed distance
    is at most the anchor's lies below the anchor: a tie between two
    strikes goes to the lower one. *)
Theorem nearest_strike_prefers_lower (strikes : list float) (p : float)
    (strike_step : Z) (m : float) (i : nat) :
  StronglySorted (λ x y, (x <? y)%float = true) strikes →
  locate_atm_double strikes p strike_step = Some (AtmNearest m, i) →
  m ∈ strikes ∧
  (∀ y, y ∈ strikes → (distance p y <? distance p m)%float = false) ∧
  (∀ y, y ∈ strikes → (distance p y <=? distance p m)%float = true →
        (y <? m)%float = false).
Proof.
  intros Hs (z & l & -> & ->)%locate_nearest_inv.
  destruct (min_from_spec p z l) as (Hmin & pre & post & Hdec & Hpre).
  set (m := min_from p z l) in *. rewrite Hdec in Hs |- *.
  split; [apply elem_of_app; right; apply list_elem_of_here|].
  split; [intros y Hy; apply Hmin; by rewrite Hdec|].
  intros y Hy Hle.
  apply elem_of_app in Hy as [Hy|Hy]; [by rewrite (Hpre y Hy) in Hle|].
  apply elem_of_cons in Hy as [->|Hy]; [float_order|].
  apply StronglySorted_app_1_r, StronglySorted_inv in Hs as [_ Hall].
  rewrite Forall_forall in Hall. specialize (Hall y Hy). cbv beta in Hall.
  clear -Hall. float_order.
Qed.

(** Witness of X15: at price 24875 the strikes 24860 and 24890 are both 15
    away and 24860 is the anchor. *)
Lemma nearest_strike_prefers_lower_witness :
  (24890 <? 24860)%float = false.
Proof.
  apply (nearest_strike_prefers_lower [24810; 24860; 24890]%float 24875%float
           50 24860%float 1);
    [repeat constructor | vm_compute; reflexivity
     | apply list_elem_of_further, list_elem_of_further, list_elem_of_here
     | vm_compute; reflexivity].
Defined.

End PyFloatFacts.

(* ================================================================== *)
(** * Further properties of the quote cache *)

Module CacheFacts.
Import KiteWS KiteWSFacts.

Section Cache.
Context {T : Type} `{Ticker T}.
Implicit Types (s : state T) (d : gmap Z quote).

Lemma on_tick_other d tn tok :
  t_instrument_token tn.1 ≠ Value tok → on_tick d tn !! tok = d !! tok.
Proof.
  intros Hne. destruct tn as [t now]. unfold on_tick. simpl in *.
  destruct (t_instrument_token t) as [| |k]; simpl; try done.
  destruct (Z.eqb_spec k 0); simpl; [done|].
  apply lookup_insert_ne. congruence.
Qed.

Lemma foldl_on_tick_other d ticks tok :
  (∀ tn, tn ∈ ticks → t_instrument_token tn.1 ≠ Value tok) →
  foldl on_tick d ticks !! tok = d !! tok.
Proof.
  revert d. induction ticks as [|tn ticks IH]; intros d Hno; [done|].
  simpl. rewrite IH.
  - apply on_tick_other, Hno, list_elem_of_here.
  - intros tn' Hin. by apply Hno, list_elem_of_further.
Qed.

Lemma on_tick_keeps d tn tok :
  is_Some (d !! tok) → is_Some (on_tick d tn !! tok).
Proof.
  intros Hd. destruct tn as [t now]. unfold on_tick. simpl.
  destruct (t_instrument_token t) as [| |k]; simpl; try done.
  destruct (Z.eqb_spec k 0); simpl; [done|].
  rewrite lookup_insert. destruct (decide (k = tok)); [by eexists | done].
Qed.

Lemma foldl_on_tick_keeps d ticks tok :
  is_Some (d !! tok) → is_Some (foldl on_tick d ticks !! tok).
Proof.
  revert d. induction ticks as [|tn ticks IH]; intros d Hd; [done|].
  simpl. by apply IH, on_tick_keeps.
Qed.

(** X1. Last write wins: after a batch, the quote read for a token is the one
    built from the last tick of the batch that carries that (non-zero)
    token, whatever was cached before and whatever else the batch holds. *)
Theorem on_ticks_last_write_wins s pre t now post tok :
  t_instrument_token t = Value tok → tok ≠ 0 →
  (∀ tn, tn ∈ post → t_instrument_token tn.1 ≠ Value tok) →
  get_live_quote (on_ticks s (pre ++ (t, now) :: post)) tok
  = Some (make_quote tok t now).
Proof.
  intros Ht Hnz Hpost. unfold get_live_quote.
  rewrite cache_on_ticks, foldl_app. cbn [foldl].
  rewrite foldl_on_tick_other by done.
  rewrite (on_tick_accepted _ _ _ tok) by done.
  apply lookup_insert_eq.
Qed.

(** X2. A batch never removes an entry, and it leaves the entry of every
    token that none of its ticks carries exactly as it was. *)
Theorem on_ticks_keeps_other_entries s ticks tok :
  (is_Some (get_live_quote s tok) →
   is_Some (get_live_quote (on_ticks s ticks) tok)) ∧
  ((∀ tn, tn ∈ ticks → t_instrument_token tn.1 ≠ Value tok) →
   get_live_quote (on_ticks s ticks) tok = get_live_quote s tok).
Proof.
  unfold get_live_quote. rewrite cache_on_ticks. split.
  - apply foldl_on_tick_keeps.
  - apply foldl_on_tick_other.
Qed.

(** X3. Two deliveries in a row act as one delivery of the concatenated
    batch: the module state after both is the same. *)
Theorem on_ticks_batches_compose s a b :
  on_ticks (on_ticks s a) b = on_ticks s (a ++ b).
Proof.
  unfold on_ticks at 1 3. cbn [store live_quotes kws access_token_ws
                               api_key_ws always_subscribed_tokens].
  rewrite cache_on_ticks. f_equal.
  rewrite foldl_app. apply insert_insert_eq.
Qed.

(** The functions that talk to the ticker leave the store and the binding
    of [live_quotes] as they are. *)
Lemma heap_start s a b i :
  store (final (start_websocket s a b i)) = store s ∧
  live_quotes (final (start_websocket s a b i)) = live_quotes s.
Proof.
  unfold start_websocket, launch, update_always.
  destruct (_ || _); [done|]. simpl.
  destruct (kws s) as [k|]; [destruct (is_connected k); [destruct (stop k)|]|];
    simpl; destruct i as [[|? ?]|]; done.
Qed.

Lemma heap_stop s :
  store (final (stop_websocket s)) = store s ∧
  live_quotes (final (stop_websocket s)) = live_quotes s.
Proof.
  unfold stop_websocket.
  destruct (kws s) as [k|]; [destruct (is_connected k); [destruct (stop k)|]|];
    done.
Qed.

Lemma heap_subscribe s R :
  store (final (subscribe_to_tokens s R)) = store s ∧
  live_quotes (final (subscribe_to_tokens s R)) = live_quotes s.
Proof.
  unfold subscribe_to_tokens.
  destruct (kws s) as [k|]; [|done].
  destruct (is_connected k); [|done].
  destruct (elements (current_subscriptions k ∖ _));
    destruct (elements (_ ∖ current_subscriptions k)); try done;
    destruct (subscribe _ _) as [k2|k2]; try done;
    destruct (set_mode_full k2 _); done.
Qed.

(** In every reachable state [live_quotes] names an allocated dict. *)
Lemma reachable_allocated s : reachable s → live_quotes s ∈ dom (store s).
Proof.
  unfold reachable. intros Hr.
  apply rtc_ind_r with (x := @init T)
    (P := λ s, live_quotes s ∈ dom (store s)) in Hr; [done| |].
  - unfold init. simpl. rewrite dom_singleton_L. by apply elem_of_singleton.
  - intros s1 s2 _ Hstep IH. cbv beta in *.
    destruct Hstep as [s0 ticks|s0|s0 a b i|s0|s0 R|s0 k Hk].
    + unfold on_ticks. simpl. rewrite dom_insert_L.
      apply elem_of_union. left. by apply elem_of_singleton.
    + unfold clear_live_quotes. simpl. rewrite dom_insert_L.
      apply elem_of_union. left. by apply elem_of_singleton.
    + destruct (heap_start s0 a b i) as [E1 E2]. by rewrite E1, E2.
    + destruct (heap_stop s0) as [E1 E2]. by rewrite E1, E2.
    + destruct (heap_subscribe s0 R) as [E1 E2]. by rewrite E1, E2.
    + done.
Qed.

(** X4. A mapping obtained from [get_all_live_quotes] before
    [clear_live_quotes] is cut off from the feed: ticks that arrive after
    the clear fill the new cache and never show in the old mapping. *)
Theorem snapshot_cut_off_by_clear s ticks :
  reachable s →
  let snap := get_all_live_quotes s in
  let s' := on_ticks (clear_live_quotes s) ticks in
  deref s' snap = deref s snap ∧
  cache s' = foldl on_tick ∅ ticks.
Proof.
  intros Hr snap s'. subst snap s'. unfold get_all_live_quotes. split.
  - apply reachable_allocated in Hr.
    unfold deref, on_ticks, clear_live_quotes. simpl.
    assert (fresh (dom (store s)) ≠ live_quotes s) as Hne.
    { intros E. apply (is_fresh (dom (store s))). by rewrite E. }
    by rewrite !lookup_insert_ne.
  - by rewrite cache_on_ticks, cache_clear.
Qed.

End Cache.

(** Witness of X1: two NIFTY ticks in one batch; the later one is read. *)
Lemma on_ticks_last_write_wins_witness :
  get_live_quote
    (on_ticks (@init sim) ([(nifty_tick, 0%Q)] ++ (nifty_tick, 1%Q) :: []))
    256265
  = Some (make_quote 256265 nifty_tick 1%Q).
Proof.
  apply (on_ticks_last_write_wins (@init sim) [(nifty_tick, 0%Q)]
           nifty_tick 1%Q [] 256265); [reflexivity | lia |].
  intros tn Hin. by apply elem_of_nil in Hin.
Defined.

(** Witness of X2: the NIFTY entry is untouched by a BANKNIFTY tick. *)
Lemma on_ticks_keeps_other_entries_witness :
  get_live_quote
    (on_ticks (on_ticks (@init sim) [(nifty_tick, 0%Q)])
       [(Callers.banknifty_tick, 1%Q)]) 256265
  = get_live_quote (on_ticks (@init sim) [(nifty_tick, 0%Q)]) 256265.
Proof.
  apply (on_ticks_keeps_other_entries
           (on_ticks (@init sim) [(nifty_tick, 0%Q)])
           [(Callers.banknifty_tick, 1%Q)] 256265).
  intros tn Hin. apply list_elem_of_singleton in Hin as ->. discriminate.
Defined.

(** Witness of X4: a snapshot of the state holding the NIFTY quote. *)
Lemma snapshot_cut_off_by_clear_witness :
  let s := on_ticks (@init sim) [(nifty_tick, 0%Q)] in
  let s' := on_ticks (clear_live_quotes s) [(nifty_tick, 1%Q)] in
  deref s' (get_all_live_quotes s) = deref s (get_all_live_quotes s) ∧
  cache s' = foldl on_tick ∅ [(nifty_tick, 1%Q)].
Proof.
  apply (snapshot_cut_off_by_clear
           (on_ticks (@init sim) [(nifty_tick, 0%Q)]) [(nifty_tick, 1%Q)]).
  eapply rtc_l; [apply step_ticks | apply rtc_refl].
Defined.

End CacheFacts.

(* ================================================================== *)
(** * Sessions: stopping, clearing and starting again *)

Module SessionFacts.
Import KiteWS OptionChain Callers KiteWSFacts.

Section Session.
Context {T : Type} `{Ticker T}.
Implicit Types (s : state T).

(** With both credentials given, [start_websocket] ends with a ticker
    bound. *)
Lemma start_binds s a t i :
  truthy_str a = true → truthy_str t = true →
  is_Some (kws (final (start_websocket s a t i))).
Proof.
  intros Ha Ht. unfold start_websocket, launch. rewrite Ha, Ht. simpl.
  destruct (kws s) as [k|]; [destruct (is_connected k); [destruct (stop k)|]|];
    simpl; rewrite ?update_always_kws; simpl; by eexists.
Qed.

Lemma start_without_credentials s a t i :
  negb (truthy_str a) || negb (truthy_str t) = true →
  kws (final (start_websocket s a t i)) = kws s ∧
  always_subscribed_tokens (final (start_websocket s a t i))
  = always_subscribed_tokens s.
Proof. intros Hmiss. unfold start_websocket. by rewrite Hmiss. Qed.

Lemma subscribe_keeps_binding s R :
  kws (final (subscribe_to_tokens s R)) = None → kws s = None.
Proof.
  unfold subscribe_to_tokens.
  destruct (kws s) as [k|] eqn:Ek; [|done].
  destruct (is_connected k); [|simpl; congruence].
  destruct (elements (current_subscriptions k ∖ _));
    destruct (elements (_ ∖ current_subscriptions k)); try done;
    destruct (subscribe _ _) as [k2|k2]; try done;
    destruct (set_mode_full k2 _); done.
Qed.

(** Persistent tokens exist only while a ticker is bound. *)
Lemma reachable_tokens_need_ticker s :
  reachable s → kws s = None → always_subscribed_tokens s = ∅.
Proof.
  unfold reachable. intros Hr.
  apply rtc_ind_r with (x := @init T)
    (P := λ s, kws s = None → always_subscribed_tokens s = ∅) in Hr;
    [done | done |].
  intros s1 s2 _ Hstep IH. cbv beta in *.
  destruct Hstep as [s0 ticks|s0|s0 a b i|s0|s0 R|s0 k Hk]; try done.
  - destruct (negb (truthy_str a) || negb (truthy_str b)) eqn:Hm.
    + destruct (start_without_credentials s0 a b i Hm) as [E1 E2].
      by rewrite E1, E2.
    + apply orb_false_elim in Hm as [Ha Hb].
      apply negb_false_iff in Ha, Hb.
      destruct (start_binds s0 a b i Ha Hb) as [k Hk]. congruence.
  - unfold stop_websocket.
    destruct (kws s0) as [k|] eqn:Ek;
      [destruct (is_connected k); [destruct (stop k)|]|]; simpl; try done.
    by rewrite Ek.
  - rewrite always_subscribe. intros Hnone. apply IH. by apply (subscribe_keeps_binding s0 R).
Qed.

(** What a completed [stop_and_clear] leaves behind. *)
Lemma stop_and_clear_returned s :
  reachable s → threw (stop_and_clear s) = false →
  kws (final (stop_and_clear s)) = None ∧
  always_subscribed_tokens (final (stop_and_clear s)) = ∅ ∧
  cache (final (stop_and_clear s)) = ∅.
Proof.
  intros Hr. pose proof (reachable_tokens_need_ticker s Hr) as Hinv.
  unfold stop_and_clear, stop_websocket.
  destruct (kws s) as [k|] eqn:Ek;
    [destruct (is_connected k); [destruct (stop k) as [k'|k']|]|];
    cbn [threw returns throws final]; try done; intros _;
    rewrite cache_clear; cbn; rewrite ?Ek; auto.
Qed.

(** X5. Ending a session ([stop_websocket] then [clear_live_quotes]) from
    any reachable state: when the ticker's [stop] returns, no ticker is
    bound, the persistent set is empty and every cache read is absent, and
    running the sequence again sends nothing.  When [stop] raises,
    [clear_live_quotes] is never reached: the cache and the persistent set
    stay as they were and the ticker stays bound. *)
Theorem stop_and_clear_ends_session s :
  reachable s →
  let o := stop_and_clear s in
  if threw o
  then cache (final o) = cache s ∧
       always_subscribed_tokens (final o) = always_subscribed_tokens s ∧
       is_Some (kws (final o))
  else kws (final o) = None ∧
       always_subscribed_tokens (final o) = ∅ ∧
       (∀ tok, get_live_quote (final o) tok = None) ∧
       calls (stop_and_clear (final o)) = [].
Proof.
  intros Hr o. subst o.
  destruct (threw (stop_and_clear s)) eqn:Hthrew.
  - revert Hthrew. unfold stop_and_clear, stop_websocket.
    destruct (kws s) as [k|] eqn:Ek;
      [destruct (is_connected k); [destruct (stop k) as [k'|k']|]|];
      cbn [threw returns throws final]; try done; intros _;
      (split; [done|]); (split; [done|]); by eexists.
  - destruct (stop_and_clear_returned s Hr Hthrew) as (Hk & Hal & Hc).
    split; [done|]. split; [done|]. split.
    + intros tok. unfold get_live_quote. by rewrite Hc, lookup_empty.
    + unfold stop_and_clear at 1, stop_websocket. by rewrite Hk.
Qed.

(** X6. A session started after one was ended carries nothing over: the new
    ticker is bound without any stop call, the persistent set is exactly the
    index tokens, the cache is empty, and when the ticker connects
    [on_connect] subscribes the index tokens and nothing else. *)
Theorem start_after_stop_is_fresh s a t :
  reachable s →
  truthy_str a = true → truthy_str t = true →
  threw (stop_and_clear s) = false →
  let o := start_with_indices (final (stop_and_clear s)) a t in
  threw o = false ∧
  calls o = [CNew a t; Spawn] ∧
  kws (final o) = Some (KiteTicker a t) ∧
  always_subscribed_tokens (final o) = list_to_set index_tokens ∧
  cache (final o) = ∅ ∧
  ∀ ws, subscribed_by (on_connect (final o) ws).1.2 = list_to_set index_tokens.
Proof.
  intros Hr Ha Ht Hok o.
  destruct (stop_and_clear_returned s Hr Hok) as (Hk & Hal & Hc).
  assert (Eo : o = returns
             (update_always
                (set_kws (set_credentials (final (stop_and_clear s)) a t)
                   (Some (KiteTicker a t))) (Some index_tokens))
             [CNew a t; Spawn]).
  { subst o. unfold start_with_indices, start_websocket, launch.
    rewrite Ha, Ht. simpl. by rewrite Hk. }
  assert (Hal' : always_subscribed_tokens (final o) = list_to_set index_tokens).
  { rewrite Eo. cbn. rewrite Hal. apply union_empty_l_L. }
  assert (Hc' : cache (final o) = ∅).
  { subst o. unfold start_with_indices. by rewrite cache_start. }
  split; [by rewrite Eo|]. split; [by rewrite Eo|].
  split; [by rewrite Eo|]. split; [done|]. split; [done|].
  intros ws. by rewrite on_connect_subscribes_always.
Qed.

End Session.

(** Witness of X5: a session started with the index tokens, with NIFTY
    cached. *)
Lemma stop_and_clear_ends_session_witness :
  let s := on_ticks (final (start_with_indices (@init sim)
                              (Some "key") (Some "token")))
                    [(nifty_tick, 0%Q)] in
  let o := stop_and_clear s in
  kws (final o) = None ∧
  always_subscribed_tokens (final o) = ∅ ∧
  (∀ tok, get_live_quote (final o) tok = None) ∧
  calls (stop_and_clear (final o)) = [].
Proof.
  assert (Hr : reachable
                 (on_ticks (final (start_with_indices (@init sim)
                                     (Some "key") (Some "token")))
                           [(nifty_tick, 0%Q)])).
  { eapply rtc_l; [apply (step_start _ (Some "key") (Some "token")
                            (Some index_tokens))|].
    eapply rtc_l; [apply step_ticks | apply rtc_refl]. }
  exact (stop_and_clear_ends_session _ Hr).
Defined.

(** Witness of X6 on the same state. *)
Lemma start_after_stop_is_fresh_witness :
  let s := on_ticks (final (start_with_indices (@init sim)
                              (Some "key") (Some "token")))
                    [(nifty_tick, 0%Q)] in
  let o := start_with_indices (final (stop_and_clear s))
             (Some "key2") (Some "token2") in
  threw o = false ∧
  calls o = [CNew (Some "key2") (Some "token2"); Spawn] ∧
  kws (final o) = Some (KiteTicker (Some "key2") (Some "token2")) ∧
  always_subscribed_tokens (final o) = list_to_set index_tokens ∧
  cache (final o) = ∅ ∧
  ∀ ws, subscribed_by (on_connect (final o) ws).1.2 = list_to_set index_tokens.
Proof.
  apply (start_after_stop_is_fresh
           (on_ticks (final (start_with_indices (@init sim)
                               (Some "key") (Some "token")))
                     [(nifty_tick, 0%Q)])
           (Some "key2") (Some "token2")); try reflexivity.
  eapply rtc_l; [apply (step_start _ (Some "key") (Some "token")
                          (Some index_tokens))|].
  eapply rtc_l; [apply step_ticks | apply rtc_refl].
Defined.

End SessionFacts.

(* ================================================================== *)
(** * Further properties of [subscribe_to_tokens] and [on_connect] *)

Module ReconcileFacts.
Import KiteWS OptionChain Callers KiteWSFacts.

Section AnyTicker.
Context {T : Type} `{Ticker T}.
Implicit Types (s : state T) (k : T) (R : list Z).

Lemma log_unsubscribe (l : list Z) (cs : list call) :
  unsubscribed_by (CUnsubscribe l :: cs) = list_to_set l ∪ unsubscribed_by cs.
Proof. reflexivity. Qed.

Lemma log_of_nonempty (X : gset Z) x l :
  elements X = x :: l → (list_to_set (x :: l) : gset Z) = X.
Proof. intros <-. apply list_to_set_elements_L. Qed.

(** The calls logged on a connected ticker are exactly the two deltas
    computed from what the ticker reported when the call began. *)
Lemma calls_are_deltas s R :
  connected s = true →
  let o := subscribe_to_tokens s R in
  let target := always_subscribed_tokens s ∪ list_to_set R in
  unsubscribed_by (calls o) = active s ∖ target ∧
  subscribed_by (calls o) = target ∖ active s.
Proof.
  unfold connected, active, subscribe_to_tokens.
  destruct (kws s) as [k|]; [|done]. intros ->. cbv zeta.
  set (target := always_subscribed_tokens s ∪ list_to_set R).
  set (cur := current_subscriptions k).
  destruct (elements (cur ∖ target)) as [|x l] eqn:E1;
    destruct (elements (target ∖ cur)) as [|y m] eqn:E2;
    try apply elements_nil_empty in E1;
    try apply elements_nil_empty in E2;
    try apply log_of_nonempty in E1;
    try apply log_of_nonempty in E2;
    try (destruct (subscribe _ _) as [k2|k2];
         try destruct (set_mode_full k2 _));
    unfold unsubscribed_by, subscribed_by, returns, throws;
    cbn [calls app map union_list foldr];
    rewrite ?union_empty_r_L, ?union_empty_l_L, ?E1, ?E2; done.
Qed.

(** X7. On a connected ticker the logged calls are exactly the two deltas:
    the tokens unsubscribed are the active ones outside the target and the
    tokens subscribed are the target ones not yet active.  So no token is
    both dropped and added by one call, no active token is subscribed again,
    and nothing outside [always_subscribed_tokens ∪ R] is subscribed.  When
    no connected ticker is bound nothing is sent. *)
Theorem reconcile_calls_are_the_deltas s R :
  let o := subscribe_to_tokens s R in
  let target := always_subscribed_tokens s ∪ list_to_set R in
  (connected s = true →
     unsubscribed_by (calls o) = active s ∖ target ∧
     subscribed_by (calls o) = target ∖ active s) ∧
  (connected s = false → calls o = []) ∧
  unsubscribed_by (calls o) ## subscribed_by (calls o) ∧
  subscribed_by (calls o) ## active s ∧
  subscribed_by (calls o) ⊆ target.
Proof.
  intros o target. subst o target.
  destruct (connected s) eqn:Hc.
  - destruct (calls_are_deltas s R Hc) as [-> ->].
    split; [done|]. split; [done|].
    split; [|split]; apply elem_of_disjoint || apply elem_of_subseteq;
      intros x; rewrite !elem_of_difference; tauto.
  - assert (E : subscribe_to_tokens s R = returns s []).
    { unfold subscribe_to_tokens, connected in *.
      destruct (kws s) as [k|]; [|done]. by rewrite Hc. }
    rewrite E. unfold unsubscribed_by, subscribed_by, returns.
    cbn [calls map union_list foldr].
    split; [done|]. split; [done|].
    split; [|split]; apply elem_of_disjoint || apply elem_of_subseteq;
      intros x Hx; by apply not_elem_of_empty in Hx.
Qed.

(** X8. The call returns whenever [subscribe] and [set_mode] return: an
    exception of [unsubscribe] is swallowed and the subscribe is still sent.
    When the call returns, the tokens put in full mode are exactly the
    tokens it subscribed. *)
Theorem reconcile_survives_unsubscribe_failure s R :
  let o := subscribe_to_tokens s R in
  ((∀ k l, ∃ k', subscribe k l = Ok k') →
   (∀ k l, ∃ k', set_mode_full k l = Ok k') →
   threw o = false) ∧
  (threw o = false → full_mode_by (calls o) = subscribed_by (calls o)).
Proof.
  intros o. subst o. unfold subscribe_to_tokens.
  destruct (kws s) as [k|]; [|done].
  destruct (is_connected k); [|done].
  set (target := always_subscribed_tokens s ∪ list_to_set R).
  set (cur := current_subscriptions k).
  split.
  - intros Hsub Hmode.
    destruct (elements (cur ∖ target)) as [|x l];
      destruct (elements (target ∖ cur)) as [|y m]; try done.
    + destruct (Hsub k (y :: m)) as [k2 ->].
      by destruct (Hmode k2 (y :: m)) as [k3 ->].
    + destruct (Hsub (after (unsubscribe k (x :: l))) (y :: m)) as [k2 ->].
      by destruct (Hmode k2 (y :: m)) as [k3 ->].
  - destruct (elements (cur ∖ target)) as [|x l];
      destruct (elements (target ∖ cur)) as [|y m];
      try (destruct (subscribe _ _) as [k2|k2];
           try destruct (set_mode_full k2 _));
      cbn [threw returns throws]; try done; intros _;
      unfold full_mode_by, subscribed_by;
      cbn [calls returns app map union_list foldr];
      by rewrite ?union_empty_r_L, ?union_empty_l_L.
Qed.

End AnyTicker.

Section OnFaithful.
Context {T : Type} `{Faithful T}.
Implicit Types (s : state T) (k : T) (R : list Z).

(** X9. Requests do not add up.  On a connected ticker that tracks its
    subscriptions, a call with [R2] after a call with [R1] leaves
    [always_subscribed_tokens ∪ R2] active: it unsubscribes exactly the
    tokens of [R1] that are neither persistent nor in [R2], and subscribes
    exactly the tokens of [R2] that are neither persistent nor in [R1]. *)
Theorem reconcile_replaces_previous_request s R1 R2 :
  connected s = true →
  let o1 := subscribe_to_tokens s R1 in
  let o2 := subscribe_to_tokens (final o1) R2 in
  let always := always_subscribed_tokens s in
  threw o2 = false ∧
  active (final o2) = always ∪ list_to_set R2 ∧
  unsubscribed_by (calls o2) = list_to_set R1 ∖ (always ∪ list_to_set R2) ∧
  subscribed_by (calls o2) = list_to_set R2 ∖ (always ∪ list_to_set R1).
Proof.
  intros Hc o1 o2 always. unfold connected in Hc.
  destruct (kws s) as [k|] eqn:Hk; [|done].
  destruct (subscribe_to_tokens_connected s k R1 Hk Hc) as (k1 & E1 & Hc1 & Hs1).
  assert (Hf1 : final o1 = set_kws s (Some k1)) by (subst o1; by rewrite E1).
  assert (Hk1 : kws (final o1) = Some k1) by by rewrite Hf1.
  assert (Ha1 : always_subscribed_tokens (final o1) = always)
    by by rewrite Hf1.
  destruct (subscribe_to_tokens_connected (final o1) k1 R2 Hk1 Hc1)
    as (k2 & E2 & Hc2 & Hs2).
  assert (Hon : connected (final o1) = true)
    by (unfold connected; by rewrite Hk1).
  destruct (calls_are_deltas (final o1) R2 Hon) as [Hu Hsb].
  fold o2 in Hu, Hsb. rewrite Ha1 in Hu, Hsb, Hs2.
  assert (Hact : active (final o1) = always ∪ list_to_set R1).
  { unfold active. by rewrite Hk1. }
  rewrite Hact in Hu, Hsb.
  split; [subst o2; by rewrite E2|].
  split; [subst o2; rewrite E2; unfold active; simpl; done|].
  rewrite Hu, Hsb. split; apply set_eq; intros x;
    rewrite !elem_of_difference, !elem_of_union; tauto.
Qed.

(** X10. When a connected ticker that tracks its subscriptions is handed to
    [on_connect], the callback returns, the ticker streams what it streamed
    before plus every persistent token, and the tokens put in full mode are
    the persistent tokens.  With no persistent token nothing is sent. *)
Theorem on_connect_restores_persistent s ws :
  is_connected ws = true →
  let '(ws', cs, raised) := on_connect s ws in
  raised = false ∧
  is_connected ws' = true ∧
  current_subscriptions ws'
  = current_subscriptions ws ∪ always_subscribed_tokens s ∧
  subscribed_by cs = always_subscribed_tokens s ∧
  full_mode_by cs = always_subscribed_tokens s ∧
  (always_subscribed_tokens s = ∅ → cs = []).
Proof.
  intros Hc. unfold on_connect.
  destruct (elements (always_subscribed_tokens s)) as [|x l] eqn:E.
  - apply elements_nil_empty in E. rewrite E.
    repeat split; try done. by rewrite union_empty_r_L.
  - pose proof (elements_cons_inhabited _ _ _ E) as Hne.
    apply log_of_nonempty in E.
    destruct (subscribe_tracks ws (x :: l) Hc) as (ws1 & -> & Hc1 & Hs1).
    destruct (set_mode_keeps ws1 (x :: l) Hc1) as (ws2 & -> & Hc2 & Hlo & Hhi).
    rewrite E in Hs1, Hhi. rewrite Hs1 in Hlo, Hhi.
    split; [done|]. split; [done|]. split.
    { apply set_eq. intros y. split.
      - intros Hy. apply Hhi in Hy. revert Hy.
        rewrite !elem_of_union. tauto.
      - intros Hy. by apply Hlo. }
    unfold subscribed_by, full_mode_by. cbn [map union_list foldr].
    rewrite !union_empty_r_L, !union_empty_l_L, E. done.
Qed.

End OnFaithful.

(** Witness of X7: BANKNIFTY requested on the reference ticker. *)
Lemma reconcile_calls_are_the_deltas_witness :
  let s := sim_state (Some sim_online) ∅ in
  let o := subscribe_to_tokens s [260105] in
  unsubscribed_by (calls o) = active s ∖ ({[ 256265 ]} ∪ list_to_set [260105]) ∧
  subscribed_by (calls o) = ({[ 256265 ]} ∪ list_to_set [260105]) ∖ active s.
Proof.
  exact (proj1 (reconcile_calls_are_the_deltas
                  (sim_state (Some sim_online) ∅) [260105]) eq_refl).
Defined.

(** Witness of X8: RELIANCE (738561) is to be dropped and BANKNIFTY added on
    a ticker whose [unsubscribe] raises. *)
Lemma reconcile_survives_unsubscribe_failure_witness :
  let o := subscribe_to_tokens stubborn_state [260105] in
  threw o = false ∧
  calls o = [CUnsubscribe [738561]; CSubscribe [260105]; CSetModeFull [260105]].
Proof.
  split; [|reflexivity].
  apply (reconcile_survives_unsubscribe_failure stubborn_state [260105]);
    intros k l; by eexists.
Defined.

(** Witness of X9: BANKNIFTY, then RELIANCE, on the reference ticker. *)
Lemma reconcile_replaces_previous_request_witness :
  let s := sim_state (Some sim_online) ∅ in
  let o2 := subscribe_to_tokens (final (subscribe_to_tokens s [260105]))
              [738561] in
  threw o2 = false ∧
  active (final o2) = {[ 256265 ]} ∪ list_to_set [738561] ∧
  unsubscribed_by (calls o2)
  = list_to_set [260105] ∖ ({[ 256265 ]} ∪ list_to_set [738561]) ∧
  subscribed_by (calls o2)
  = list_to_set [738561] ∖ ({[ 256265 ]} ∪ list_to_set [260105]).
Proof.
  apply (reconcile_replaces_previous_request
           (sim_state (Some sim_online) ∅) [260105] [738561]).
  reflexivity.
Defined.

(** Witness of X10: a newly connected reference ticker. *)
Lemma on_connect_restores_persistent_witness :
  let '(ws', cs, raised) :=
    on_connect (sim_state None ∅)
      {| sim_connected := true; sim_subscriptions := ∅ |} in
  raised = false ∧
  is_connected ws' = true ∧
  current_subscriptions ws' = ∅ ∪ {[ 256265 ]} ∧
  subscribed_by cs = {[ 256265 ]} ∧
  full_mode_by cs = {[ 256265 ]} ∧
  (({[ 256265 ]} : gset Z) = ∅ → cs = []).
Proof.
  exact (on_connect_restores_persistent (sim_state None ∅)
           {| sim_connected := true; sim_subscriptions := ∅ |} eq_refl).
Defined.

End ReconcileFacts.

(* ================================================================== *)
(** * Further properties of the strike window *)

Module WindowFacts.
Import KiteWS OptionChain Callers OptionChainFacts.

Lemma py_slice_run {A} (l : list A) (a b : Z) :
  ∃ pre post, l = pre ++ py_slice l a b ++ post.
Proof.
  exists (take (Z.to_nat a) l),
         (drop (Z.to_nat (b - a)) (drop (Z.to_nat a) l)).
  unfold py_slice. by rewrite take_drop, take_drop.
Qed.

Lemma window_is_slice (strikes : list Q) (idx : nat) (n : Z) :
  ∃ a b, window strikes idx n = py_slice strikes a b.
Proof.
  unfold window. destruct (_ && _); by eexists _, _.
Qed.

Lemma run_sorted (l pre w post : list Q) :
  l = pre ++ w ++ post → StronglySorted Qlt l → StronglySorted Qlt w.
Proof.
  intros -> Hs.
  apply StronglySorted_app_1_r in Hs. by apply StronglySorted_app_1_l in Hs.
Qed.

(** X11. Size of the window around a valid ATM index: it always contains
    the ATM strike and never has more than [2n+1] strikes; it has exactly
    [2n+1] whenever the list has that many, and otherwise it has
    [min(len, idx+n+1)] of the [len] strikes. *)
Theorem window_size_and_anchor (strikes : list Q) (idx : nat) (n : Z) (a : Q) :
  0 ≤ n → strikes !! idx = Some a →
  let len := Z.of_nat (length strikes) in
  let size := Z.of_nat (length (window strikes idx n)) in
  a ∈ window strikes idx n ∧
  1 ≤ size ∧ size ≤ 2 * n + 1 ∧ size ≤ len ∧
  (2 * n + 1 ≤ len → size = 2 * n + 1) ∧
  (len < 2 * n + 1 → size = Z.min len (Z.of_nat idx + n + 1)).
Proof.
  intros Hn Ha len size.
  pose proof (lookup_lt_Some _ _ _ Ha) as Hidx.
  pose proof (window_length strikes idx n Hn Hidx) as Hw.
  fold len size in Hw.
  split; [by apply window_elem|].
  destruct (Z.leb_spec (2 * n + 1) len); lia.
Qed.

(** X12. The window is a run of consecutive strikes of the list, so it is
    strictly ascending whenever the list is. *)
Theorem window_is_a_run (strikes : list Q) (idx : nat) (n : Z) :
  (∃ pre post, strikes = pre ++ window strikes idx n ++ post) ∧
  (StronglySorted Qlt strikes → StronglySorted Qlt (window strikes idx n)).
Proof.
  destruct (window_is_slice strikes idx n) as (a & b & ->).
  destruct (py_slice_run strikes a b) as (pre & post & E).
  split; [by exists pre, post|]. by apply (run_sorted _ pre _ post).
Qed.

(** X13. When the ATM index has [n] strikes on each side, the window is
    centred: it is the [2n+1] strikes from index [idx-n] to [idx+n], with
    the ATM strike in the middle. *)
Theorem window_centred (strikes : list Q) (idx : nat) (n : Z) :
  0 ≤ n → n ≤ Z.of_nat idx → Z.of_nat idx + n < Z.of_nat (length strikes) →
  window strikes idx n
  = take (Z.to_nat (2 * n + 1)) (drop (idx - Z.to_nat n) strikes) ∧
  window strikes idx n !! Z.to_nat n = strikes !! idx.
Proof.
  intros Hn Hlo Hhi.
  assert (E : window strikes idx n
              = take (Z.to_nat (2 * n + 1)) (drop (idx - Z.to_nat n) strikes)).
  { unfold window.
    destruct (Z.ltb_spec
                (Z.min (Z.of_nat (length strikes)) (Z.of_nat idx + n + 1)
                 - Z.max 0 (Z.of_nat idx - n)) (2 * n + 1)); [lia|].
    rewrite !length_py_slice by lia.
    destruct (Z.ltb_spec
                (Z.max 0
                   (Z.min
                      (Z.min (Z.of_nat (length strikes))
                         (Z.of_nat idx + n + 1)
                       - Z.max 0 (Z.of_nat idx - n))
                      (Z.of_nat (length strikes)
                       - Z.max 0 (Z.of_nat idx - n))))
                (2 * n + 1)); [lia|].
    cbn [andb]. unfold py_slice. f_equal; [|f_equal]; lia. }
  split; [exact E|].
  rewrite E, lookup_take_lt by lia. rewrite lookup_drop. f_equal. lia.
Qed.

(** The index [locate_atm] returns is a position of the anchor. *)
Lemma locate_atm_index strikes p step a i :
  locate_atm strikes p step = Some (a, i) →
  ∃ x, strikes !! i = Some x ∧ (x == a)%Q.
Proof.
  unfold locate_atm. destruct (step =? 0); [done|].
  destruct (index_of _ strikes) as [j|] eqn:Ej.
  - intros [= <- <-]. by apply index_of_Some.
  - destruct (closest p strikes) as [c|]; [|done].
    destruct (index_of c strikes) as [j|] eqn:Ec; [|done].
    intros [= <- <-]. by apply index_of_Some.
Qed.


(** What any successful selection returns. *)
Lemma select_result strikes cur step n w :
  0 ≤ n → select_display_strikes strikes cur step n = Some w →
  (∃ pre post, strikes = pre ++ w ++ post) ∧
  Z.of_nat (length w) ≤ 2 * n + 1.
Proof.
  intros Hn. unfold select_display_strikes.
  assert (Hfall :
    match strikes with
    | [] => Some []
    | _ :: _ =>
        Some (py_slice strikes 0
                (Z.min (Z.of_nat (length strikes)) (2 * n + 1)))
    end = Some w →
    (∃ pre post, strikes = pre ++ w ++ post) ∧
    Z.of_nat (length w) ≤ 2 * n + 1).
  { destruct strikes as [|x l] eqn:Es.
    - intros [= <-]. split; [by exists [], []|]. simpl. lia.
    - rewrite <- Es. intros [= <-]. split; [apply py_slice_run|].
      rewrite length_py_slice by lia. lia. }
  destruct cur as [p|]; [|exact Hfall].
  destruct (locate_atm strikes p step) as [[a i]|] eqn:El; [|done].
  destruct (locate_atm_index _ _ _ _ _ El) as (x & Hx & _).
  destruct (window strikes i n) as [|y w'] eqn:Ew; [exact Hfall|].
  intros [= <-]. rewrite <- Ew. split.
  - destruct (window_is_slice strikes i n) as (lo & hi & ->).
    apply py_slice_run.
  - pose proof (window_length strikes i n Hn (lookup_lt_Some _ _ _ Hx)) as Hw.
    destruct (Z.leb_spec (2 * n + 1) (Z.of_nat (length strikes))); lia.
Qed.


(** Witness of X11: the middle strike of five, two on each side. *)
Lemma window_size_and_anchor_witness :
  let strikes := strikes_of [24750; 24800; 24850; 24900; 24950] in
  let size := Z.of_nat (length (window strikes 2 2)) in
  inject_Z 24850 ∈ window strikes 2 2 ∧
  1 ≤ size ∧ size ≤ 2 * 2 + 1 ∧ size ≤ 5 ∧
  (2 * 2 + 1 ≤ 5 → size = 2 * 2 + 1) ∧
  (5 < 2 * 2 + 1 → size = Z.min 5 (2 + 2 + 1)).
Proof.
  apply (window_size_and_anchor
           (strikes_of [24750; 24800; 24850; 24900; 24950]) 2 2
           (inject_Z 24850)); [lia | reflexivity].
Defined.

(** Witness of X12: the same list is strictly ascending. *)
Lemma window_is_a_run_witness :
  StronglySorted Qlt
    (window (sorted_unique (strikes_of [24900; 24750; 24850; 24800; 24950]))
       2 1).
Proof.
  apply (window_is_a_run
           (sorted_unique (strikes_of [24900; 24750; 24850; 24800; 24950]))
           2 1).
  apply sorted_unique_sorted.
Defined.

(** Witness of X13: index 2 of five strikes with one strike on each side. *)
Lemma window_centred_witness :
  let strikes := strikes_of [24750; 24800; 24850; 24900; 24950] in
  window strikes 2 1 = take (Z.to_nat (2 * 1 + 1)) (drop (2 - Z.to_nat 1) strikes) ∧
  window strikes 2 1 !! Z.to_nat 1 = strikes !! 2%nat.
Proof.
  apply (window_centred
           (strikes_of [24750; 24800; 24850; 24900; 24950]) 2 1);
    simpl; lia.
Defined.


End WindowFacts.

(* ================================================================== *)
(** * Properties of [plot_option_chain] as a whole *)

Module ChainFacts.
Import KiteWS OptionChain Callers KiteWSFacts OptionChainFacts WindowFacts.

Lemma insert_strike_elem x y l : y ∈ insert_strike x l → y = x ∨ y ∈ l.
Proof.
  induction l as [|z l IH]; cbn [insert_strike].
  - intros ->%list_elem_of_singleton. by left.
  - destruct (x ?= z)%Q.
    + by right.
    + rewrite elem_of_cons. tauto.
    + rewrite !elem_of_cons. intros [->|Hin]; [tauto|].
      destruct (IH Hin); tauto.
Qed.

Lemma sorted_unique_elem y l : y ∈ sorted_unique l → y ∈ l.
Proof.
  induction l as [|x l IH]; cbn [sorted_unique foldr]; [done|].
  intros [->|Hin]%insert_strike_elem.
  - apply list_elem_of_here.
  - by apply list_elem_of_further, IH.
Qed.

(** Membership in the list handed to [subscribe_to_tokens]. *)
Lemma instruments_to_subscribe_elem rows d t :
  t ∈ instruments_to_subscribe rows d ↔
  t ∈ index_tokens ∨
  ∃ r, r ∈ rows ∧ row_token r = t ∧ strike_in d (row_strike r) = true.
Proof.
  unfold instruments_to_subscribe. rewrite !elem_of_app.
  rewrite !list_elem_of_In, !in_map_iff.
  setoid_rewrite filter_In. setoid_rewrite <- list_elem_of_In.
  split.
  - intros [?|[(r & Ht & Hr & Hf)|(r & Ht & Hr & Hf)]]; [by left| |];
      right; exists r; apply andb_prop in Hf as [_ ?]; done.
  - intros [?|(r & Hr & Ht & Hs)]; [by left|]. right.
    destruct (is_ce r) eqn:Ece; [left|right]; exists r;
      rewrite Ece, Hs; done.
Qed.

Section Chain.
Context {T : Type} `{Ticker T}.

(** What a [Chain] result tells about the run that produced it. *)
Lemma chain_inv (req : request) (ws_at : nat → state T) (ws_sub : state T)
    (reply : rest_reply) (rows : list option_row) d p o :
  plot_option_chain req ws_at ws_sub reply rows = Chain d p o →
  passes_guards req = true ∧
  d ≠ [] ∧
  o = subscribe_to_tokens ws_sub (instruments_to_subscribe rows d) ∧
  threw o = false ∧
  ∃ details,
    assoc_get (upper (default EmptyString (underlying_symbol req)))
      INDEX_INSTRUMENT_DETAILS = Some details ∧
    p = with_rest_fallback (poll_ltp ws_at (index_token details) 0 3) reply ∧
    select_display_strikes (sorted_unique (map row_strike rows)) p
      (strike_step details) (normalize_otm (num_otm_strikes req)) = Some d.
Proof.
  unfold plot_option_chain.
  destruct (negb (triggered req) || negb (kite_ready req)
            || negb (truthy_str (access_token req))
            || instrument_df_empty req) eqn:G1; [done|].
  destruct (negb (truthy_str (underlying_symbol req))
            || negb (truthy_str (expiry_date_str req))) eqn:G2; [done|].
  destruct (negb (expiry_parses req)) eqn:G3; [done|].
  destruct (assoc_get _ INDEX_INSTRUMENT_DETAILS) as [details|] eqn:Ed;
    [|done].
  destruct rows as [|r rows']; [done|].
  destruct (select_display_strikes _ _ _ _) as [[|x w]|] eqn:Es; try done.
  destruct (threw (subscribe_to_tokens _ _)) eqn:Ht; [done|].
  intros [= <- <- <-].
  split.
  { unfold passes_guards.
    repeat (apply orb_false_elim in G1 as [G1 ?]).
    apply orb_false_elim in G2 as [G2 ?].
    repeat match goal with
      | E : negb _ = false |- _ => apply negb_false_iff in E; rewrite E
      | E : instrument_df_empty _ = false |- _ => rewrite E
      end. reflexivity. }
  split; [done|]. split; [done|]. split; [done|].
  by exists details.
Qed.

(** X16. Whenever the callback gets as far as building the table, the
    strikes it displays are real and ordered: there is at least one and at
    most [2n+1] of them ([n] being the validated [num_otm_strikes]), each is
    the strike of some option row of the expiry, they are strictly
    ascending, and they are consecutive entries of the sorted strike
    list. *)
Theorem displayed_strikes_are_sound (req : request) (ws_at : nat → state T)
    (ws_sub : state T) (reply : rest_reply) (rows : list option_row) d p o :
  plot_option_chain req ws_at ws_sub reply rows = Chain d p o →
  let n := normalize_otm (num_otm_strikes req) in
  1 ≤ Z.of_nat (length d) ≤ 2 * n + 1 ∧
  StronglySorted Qlt d ∧
  (∀ x, x ∈ d → ∃ r, r ∈ rows ∧ row_strike r = x) ∧
  ∃ pre post, sorted_unique (map row_strike rows) = pre ++ d ++ post.
Proof.
  intros Hc n. apply chain_inv in Hc as (_ & Hne & _ & _ & det & _ & _ & Hs).
  pose proof (normalize_otm_nonneg (num_otm_strikes req)) as Hn.
  destruct (select_result _ _ _ _ _ Hn Hs) as [(pre & post & E) Hlen].
  split; [|split; [|split]].
  - fold n in Hlen. destruct d; [done | simpl in *; lia].
  - apply (run_sorted _ pre _ post E), sorted_unique_sorted.
  - intros x Hx.
    assert (Hin : x ∈ sorted_unique (map row_strike rows)).
    { rewrite E, !elem_of_app. tauto. }
    apply sorted_unique_elem, list_elem_of_In, in_map_iff in Hin
      as (r & <- & Hr).
    exists r. by rewrite list_elem_of_In.
  - by exists pre, post.
Qed.

(** X17. The retry loop takes the first quote that shows up in the cache:
    if the polls before attempt [k] miss and attempt [k] (within the retry
    budget) finds a quote, the loop ends with that quote's last price, and
    later states of the cache are not read.  A quote without a last price
    ends the loop just the same and leaves the price to the REST call. *)
Theorem poll_ltp_first_hit (ws_at : nat → state T) (tok : Z)
    (k retries : nat) (q : quote) (reply : rest_reply) :
  (k < retries)%nat →
  (∀ i, (i < k)%nat → get_live_quote (ws_at i) tok = None) →
  get_live_quote (ws_at k) tok = Some q →
  poll_ltp ws_at tok 0 retries = last_price q ∧
  (last_price q = None →
   with_rest_fallback (poll_ltp ws_at tok 0 retries) reply
   = with_rest_fallback None reply).
Proof.
  intros Hk Hmiss Hhit.
  assert (E : ∀ a r, (k < r)%nat →
            (∀ i, (i < k)%nat → get_live_quote (ws_at (a + i)%nat) tok = None) →
            get_live_quote (ws_at (a + k)%nat) tok = Some q →
            poll_ltp ws_at tok a r = last_price q).
  { clear. induction k as [|k IH]; intros a r Hr Hm Hh.
    - destruct r as [|r]; [lia|]. cbn [poll_ltp].
      rewrite Nat.add_0_r in Hh. by rewrite Hh.
    - destruct r as [|r]; [lia|]. cbn [poll_ltp].
      pose proof (Hm 0%nat ltac:(lia)) as H0. rewrite Nat.add_0_r in H0.
      rewrite H0. apply IH; [lia | |].
      + intros i Hi. replace (S a + i)%nat with (a + S i)%nat by lia.
        apply Hm. lia.
      + by replace (S a + k)%nat with (a + S k)%nat by lia. }
  rewrite (E 0%nat retries Hk Hmiss Hhit). split; [done|]. by intros ->.
Qed.

End Chain.

Section ChainOnFaithful.
Context {T : Type} `{Faithful T}.

(** X18. When the table is built on a connected ticker that tracks its
    subscriptions, what streams afterwards is exactly the persistent tokens,
    the six index tokens and the tokens of the option rows whose strike is
    displayed; in particular every index and every displayed call and put
    is live. *)
Theorem chain_streams_displayed_options (req : request)
    (ws_at : nat → state T) (ws_sub : state T) (reply : rest_reply)
    (rows : list option_row) d p o :
  connected ws_sub = true →
  plot_option_chain req ws_at ws_sub reply rows = Chain d p o →
  ∀ t, t ∈ active (final o) ↔
       t ∈ always_subscribed_tokens ws_sub ∨ t ∈ index_tokens ∨
       ∃ r, r ∈ rows ∧ row_token r = t ∧ strike_in d (row_strike r) = true.
Proof.
  intros Hon Hc t. apply chain_inv in Hc as (_ & _ & -> & _ & _).
  unfold connected in Hon. destruct (kws ws_sub) as [k|] eqn:Hk; [|done].
  destruct (subscribe_to_tokens_connected ws_sub k
              (instruments_to_subscribe rows d) Hk Hon) as (k' & E & _ & Hs).
  rewrite E. unfold active. cbn. rewrite Hs.
  rewrite elem_of_union, elem_of_list_to_set, instruments_to_subscribe_elem.
  tauto.
Qed.

End ChainOnFaithful.

(** ** In-the-money marks *)

(** X19. No strike is marked in the money for both its call and its put, a
    strike equal to the reference price is marked for neither, and without
    a reference price nothing is marked.  Along ascending strikes the
    marked calls come first and the marked puts last: below a marked call
    every call is marked, above a marked put every put is. *)
Theorem itm_marks (current_ltp : option Q) (x y : Q) :
  call_itm current_ltp x && put_itm current_ltp x = false ∧
  (current_ltp = Some x → call_itm current_ltp x = false
                          ∧ put_itm current_ltp x = false) ∧
  call_itm None x = false ∧ put_itm None x = false ∧
  ((x <= y)%Q → call_itm current_ltp y = true → call_itm current_ltp x = true) ∧
  ((x <= y)%Q → put_itm current_ltp x = true → put_itm current_ltp y = true).
Proof.
  unfold call_itm, put_itm. destruct current_ltp as [p|].
  - split; [by destruct (x ?= p)%Q|]. split.
    { intros [= ->].
      assert ((x ?= x)%Q = Eq) as -> by (apply Qeq_alt; reflexivity). done. }
    split; [done|]. split; [done|]. split; intros Hxy.
    + destruct (y ?= p)%Q eqn:Ey; try done. intros _.
      apply Qlt_alt in Ey.
      assert ((x ?= p)%Q = Lt) as ->; [|done].
      apply Qlt_alt. by eapply Qle_lt_trans.
    + destruct (x ?= p)%Q eqn:Ex; try done. intros _.
      apply Qgt_alt in Ex.
      assert ((y ?= p)%Q = Gt) as ->; [|done].
      apply Qgt_alt. by eapply Qlt_le_trans.
  - repeat split; done.
Qed.

(** Witness of X16 and X18: NIFTY at 24853 on the connected reference
    ticker, four listed strikes, one strike requested on each side. *)
Lemma displayed_strikes_are_sound_witness :
  let ws := on_ticks (sim_state (Some sim_online) ∅) [(nifty_tick, 0%Q)] in
  let rows := ce_pe 1000 24850 ++ ce_pe 1002 24900 ++ ce_pe 1004 24950
              ++ ce_pe 1006 25000 in
  let d := strikes_of [24850; 24900; 24950] in
  1 ≤ Z.of_nat (length d) ≤ 2 * normalize_otm (Some 1) + 1 ∧
  StronglySorted Qlt d ∧
  (∀ x, x ∈ d → ∃ r, r ∈ rows ∧ row_strike r = x) ∧
  ∃ pre post, sorted_unique (map row_strike rows) = pre ++ d ++ post.
Proof.
  eapply (displayed_strikes_are_sound (nifty_request (Some 1))
            (λ _, on_ticks (sim_state (Some sim_online) ∅) [(nifty_tick, 0%Q)])
            (on_ticks (sim_state (Some sim_online) ∅) [(nifty_tick, 0%Q)])
            RestRaises).
  vm_compute. reflexivity.
Defined.

Lemma chain_streams_displayed_options_witness :
  let ws := on_ticks (sim_state (Some sim_online) ∅) [(nifty_tick, 0%Q)] in
  let rows := ce_pe 1000 24850 ++ ce_pe 1002 24900 ++ ce_pe 1004 24950
              ++ ce_pe 1006 25000 in
  let d := strikes_of [24850; 24900; 24950] in
  1000 ∈ active (final (subscribe_to_tokens ws
                          (instruments_to_subscribe rows d))).
Proof.
  apply (chain_streams_displayed_options (nifty_request (Some 1))
           (λ _, on_ticks (sim_state (Some sim_online) ∅) [(nifty_tick, 0%Q)])
           (on_ticks (sim_state (Some sim_online) ∅) [(nifty_tick, 0%Q)])
           RestRaises
           (ce_pe 1000 24850 ++ ce_pe 1002 24900 ++ ce_pe 1004 24950
            ++ ce_pe 1006 25000)
           (strikes_of [24850; 24900; 24950]) (Some (24853 # 1)));
    [reflexivity | vm_compute; reflexivity |].
  right. right.
  exists {| row_token := 1000; row_strike := inject_Z 24850; row_type := CE |}.
  split; [apply list_elem_of_here | split; reflexivity].
Defined.

(** Witness of X17: the cache is empty at the first poll and holds NIFTY at
    the second. *)
Lemma poll_ltp_first_hit_witness :
  let ws_at (i : nat) :=
    match i with
    | O => sim_state (Some sim_online) ∅
    | _ => on_ticks (sim_state (Some sim_online) ∅) [(nifty_tick, 0%Q)]
    end in
  poll_ltp ws_at 256265 0 3 = Some (24853 # 1).
Proof.
  intros ws_at.
  apply (poll_ltp_first_hit ws_at 256265 1 3
           (make_quote 256265 nifty_tick 0%Q) RestRaises); [lia| |reflexivity].
  intros i Hi. assert (i = 0%nat) as -> by lia. reflexivity.
Defined.

(** Witness of X19: the call at 24850 is marked at price 24853, so the call
    at 24800 is. *)
Lemma itm_marks_witness :
  call_itm (Some (24853 # 1)) (inject_Z 24800) = true.
Proof.
  apply (itm_marks (Some (24853 # 1)) (inject_Z 24800) (inject_Z 24850));
    [unfold Qle; simpl; lia | reflexivity].
Defined.

End ChainFacts.

(* ================================================================== *)
(** * Properties of [fetch_live_quotes] *)

Module QuotesFacts.
Import KiteWS OptionChain Callers KiteWSFacts ReconcileFacts.

Lemma display_row_symbol master c symbol :
  q_symbol (display_row master c symbol) = symbol.
Proof. unfold display_row. by destruct (assoc_get symbol master). Qed.

Lemma parsed_needs_input (symbols_input : option string) :
  parse_symbols (default EmptyString symbols_input) ≠ [] →
  truthy_str symbols_input = true.
Proof. by destruct symbols_input as [[|c s]|]. Qed.

Lemma tokens_to_fetch_cons (l : list Z) : ∃ t l', index_tokens ++ l = t :: l'.
Proof. by eexists _, _. Qed.

Section Quotes.
Context {T : Type} `{Ticker T}.

Lemma table_inv (n_clicks : option Z) (symbols_input : option string)
    (master : list (string * Z)) (ws : state T) rows o :
  fetch_live_quotes n_clicks symbols_input master ws = Table rows o →
  let symbols := parse_symbols (default EmptyString symbols_input) in
  connected ws = true ∧ symbols ≠ [] ∧
  o = subscribe_to_tokens ws (index_tokens ++ found_tokens master symbols) ∧
  threw o = false ∧
  rows = map (display_row master (cache (final o))) symbols.
Proof.
  unfold fetch_live_quotes.
  destruct (negb (truthy_int n_clicks)); [done|].
  destruct (connected ws); [|done]. cbn [negb].
  destruct (negb (truthy_str symbols_input)); [done|].
  destruct (parse_symbols _) as [|sym syms] eqn:Ep; [done|].
  destruct (tokens_to_fetch_cons (found_tokens master (sym :: syms)))
    as (t0 & tl & Et).
  rewrite Et. rewrite <- Et.
  destruct (threw (subscribe_to_tokens ws _)) eqn:Ht; [done|].
  intros [= <- <-]. done.
Qed.

(** X20. The table of [fetch_live_quotes] has one row per entered symbol, in
    the order entered.  The subscription the callback makes does not change
    the cache, so the rows show what was cached when the callback began: a
    row carries the token the instrument master gives for its symbol (none
    when the symbol is unknown), and its price is the cached last price of
    that token, absent for a token that has no cached quote yet. *)
Theorem quote_table_shows_cache_before_call (n_clicks : option Z)
    (symbols_input : option string) (master : list (string * Z))
    (ws : state T) rows o :
  fetch_live_quotes n_clicks symbols_input master ws = Table rows o →
  map q_symbol rows = parse_symbols (default EmptyString symbols_input) ∧
  ∀ row, row ∈ rows →
    q_token row = assoc_get (q_symbol row) master ∧
    q_ltp row = (q_token row ≫= λ t, get_live_quote ws t ≫= last_price) ∧
    (get_live_quote ws <$> q_token row = Some None → q_ltp row = None).
Proof.
  intros Ht. apply table_inv in Ht as (_ & _ & -> & _ & ->).
  rewrite cache_subscribe. split.
  - rewrite map_map. erewrite map_ext; [apply map_id|].
    intros symbol. apply display_row_symbol.
  - intros row Hrow.
    apply list_elem_of_In, in_map_iff in Hrow as (symbol & <- & _).
    unfold display_row, get_live_quote.
    destruct (assoc_get symbol master) as [t|] eqn:Et; cbn; rewrite Et;
      [|done].
    split; [done|]. split; [done|]. by intros [= ->].
Qed.

End Quotes.

Section QuotesOnFaithful.
Context {T : Type} `{Faithful T}.

(** X21. When [fetch_live_quotes] ends in its table on a ticker that tracks
    its subscriptions, exactly the persistent tokens, the index tokens and
    the tokens of the symbols found in the master are streamed afterwards:
    every other token that was streaming, such as the options of a plotted
    chain, has been unsubscribed. *)
Theorem quote_fetch_replaces_stream (n_clicks : option Z)
    (symbols_input : option string) (master : list (string * Z))
    (ws : state T) rows o :
  fetch_live_quotes n_clicks symbols_input master ws = Table rows o →
  let symbols := parse_symbols (default EmptyString symbols_input) in
  let wanted : gset Z :=
    always_subscribed_tokens ws ∪ list_to_set index_tokens
    ∪ list_to_set (found_tokens master symbols) in
  active (final o) = wanted ∧
  unsubscribed_by (calls o) = active ws ∖ wanted.
Proof.
  intros Ht symbols wanted.
  apply table_inv in Ht as (Hon & _ & -> & _ & _). fold symbols.
  pose proof (calls_are_deltas ws
                (index_tokens ++ found_tokens master symbols) Hon) as [Hu _].
  pose proof Hon as Hon'. unfold connected in Hon'.
  destruct (kws ws) as [k|] eqn:Hk; [|done].
  destruct (subscribe_to_tokens_connected ws k
              (index_tokens ++ found_tokens master symbols) Hk Hon')
    as (k' & E & _ & Hs).
  assert (Hw : always_subscribed_tokens ws
               ∪ list_to_set (index_tokens ++ found_tokens master symbols)
               = wanted).
  { subst wanted. by rewrite list_to_set_app_L, union_assoc_L. }
  rewrite Hw in Hs, Hu. split; [|exact Hu].
  rewrite E. unfold active. cbn. exact Hs.
Qed.

End QuotesOnFaithful.

(** Witness of X20: RELIANCE and an unknown symbol, with only NIFTY
    cached. *)
Lemma quote_table_shows_cache_before_call_witness :
  ∃ rows,
    map q_symbol rows = parse_symbols "reliance, foo" ∧
    ∀ row, row ∈ rows →
      q_token row = assoc_get (q_symbol row) master_example ∧
      q_ltp row
      = (q_token row ≫= λ t,
           get_live_quote
             (on_ticks (sim_state (Some sim_online) ∅) [(nifty_tick, 0%Q)]) t
           ≫= last_price) ∧
      (get_live_quote
         (on_ticks (sim_state (Some sim_online) ∅) [(nifty_tick, 0%Q)])
         <$> q_token row = Some None → q_ltp row = None).
Proof.
  eexists.
  eapply (quote_table_shows_cache_before_call (Some 1) (Some "reliance, foo")
            master_example
            (on_ticks (sim_state (Some sim_online) ∅) [(nifty_tick, 0%Q)])).
  vm_compute. reflexivity.
Defined.

(** Witness of X21: RELIANCE is fetched while an option token (1000) is
    streaming. *)
Lemma quote_fetch_replaces_stream_witness :
  let ws := sim_state (Some {| sim_connected := true;
                               sim_subscriptions :=
                                 {[ 256265 := "full"; 1000 := "full" ]} |}) ∅ in
  let o := subscribe_to_tokens ws
             (index_tokens ++ found_tokens master_example
                                (parse_symbols "reliance")) in
  let wanted : gset Z :=
    always_subscribed_tokens ws ∪ list_to_set index_tokens
    ∪ list_to_set (found_tokens master_example (parse_symbols "reliance")) in
  active (final o) = wanted ∧
  unsubscribed_by (calls o) = active ws ∖ wanted.
Proof.
  eapply (quote_fetch_replaces_stream (Some 1) (Some "reliance") master_example
            (sim_state (Some {| sim_connected := true;
                                sim_subscriptions :=
                                  {[ 256265 := "full"; 1000 := "full" ]} |}) ∅)).
  vm_compute. reflexivity.
Defined.

End QuotesFacts.

(* ================================================================== *)
(** * Persistent tokens across starts, and parsed symbols *)

Module InputFacts.
Import KiteWS OptionChain Callers KiteWSFacts.

Section Start.
Context {T : Type} `{Ticker T}.

(** X22. [start_websocket] only ever adds to the persistent set: whatever
    the state and the arguments, the old tokens stay and anything new comes
    from [initial_tokens].  When both credentials are given and the call
    returns, the set afterwards is the old set together with
    [initial_tokens], so repeated starts without a stop accumulate. *)
Theorem start_only_adds_tokens (s : state T) (a t : option string)
    (i : option (list Z)) :
  let o := start_websocket s a t i in
  let added : gset Z := list_to_set (default [] i) in
  always_subscribed_tokens s ⊆ always_subscribed_tokens (final o) ∧
  always_subscribed_tokens (final o) ⊆ always_subscribed_tokens s ∪ added ∧
  (truthy_str a = true → truthy_str t = true → threw o = false →
   always_subscribed_tokens (final o) = always_subscribed_tokens s ∪ added).
Proof.
  intros o added. subst o added. set (added := list_to_set (default [] i)).
  assert (Hup : ∀ s' : state T,
            always_subscribed_tokens (update_always s' i)
            = always_subscribed_tokens s' ∪ added).
  { intros s'. subst added. destruct i as [[|x l]|]; cbn [update_always default];
      [symmetry; apply union_empty_r_L | reflexivity
       | symmetry; apply union_empty_r_L]. }
  assert (Hsame : ∀ X : gset Z, X ⊆ X ∧ X ⊆ X ∪ added).
  { intros X. split; [reflexivity | apply union_subseteq_l]. }
  assert (Hgrow : ∀ X : gset Z, X ⊆ X ∪ added ∧ X ∪ added ⊆ X ∪ added).
  { intros X. split; [apply union_subseteq_l | reflexivity]. }
  unfold start_websocket, launch.
  destruct (truthy_str a) eqn:Ha; destruct (truthy_str t) eqn:Ht;
    cbn [negb orb].
  2-4: cbn [final returns always_subscribed_tokens set_credentials];
       destruct (Hsame (always_subscribed_tokens s)) as [? ?];
       split; [assumption|]; split; [assumption|]; intros; discriminate.
  cbn [kws set_credentials].
  destruct (kws s) as [k|]; [destruct (is_connected k); [destruct (stop k)|]|];
    cbn [final threw returns throws]; rewrite ?Hup;
    cbn [always_subscribed_tokens set_kws set_credentials].
  - destruct (Hgrow (always_subscribed_tokens s)) as [? ?].
    split; [assumption|]. split; [assumption|]. reflexivity.
  - destruct (Hsame (always_subscribed_tokens s)) as [? ?].
    split; [assumption|]. split; [assumption|]. intros; discriminate.
  - destruct (Hgrow (always_subscribed_tokens s)) as [? ?].
    split; [assumption|]. split; [assumption|]. reflexivity.
  - destruct (Hgrow (always_subscribed_tokens s)) as [? ?].
    split; [assumption|]. split; [assumption|]. reflexivity.
Qed.

End Start.

Lemma upper_ascii_idem c : upper_ascii (upper_ascii c) = upper_ascii c.
Proof.
  destruct c as [[] [] [] [] [] [] [] []]; vm_compute; reflexivity.
Qed.

Lemma upper_idem s : upper (upper s) = upper s.
Proof.
  induction s as [|c s IH]; [done|]. cbn [upper].
  by rewrite upper_ascii_idem, IH.
Qed.

Lemma upper_nonempty s : nonempty (upper s) = nonempty s.
Proof. by destruct s. Qed.

(** Pieces of blanks strip to the empty string. *)
Lemma lstrip_spaces l : Forall (λ c, is_space c = true) l → lstrip l = [].
Proof.
  induction 1 as [|c l Hc _ IH]; [done|]. cbn [lstrip]. by rewrite Hc.
Qed.

Lemma strip_spaces s :
  Forall (λ c, is_space c = true) (list_ascii_of_string s) →
  strip s = EmptyString.
Proof. intros Hs. unfold strip. by rewrite (lstrip_spaces _ Hs). Qed.

Lemma split_comma_cons s : ∃ h t, split_comma s = h :: t.
Proof.
  induction s as [|c s (h & t & E)]; cbn [split_comma]; [by eexists _, _|].
  destruct (Ascii.eqb c ","); [by eexists _, _|]. rewrite E. by eexists _, _.
Qed.

Lemma split_comma_blank s :
  Forall (λ c, c = ","%char ∨ is_space c = true) (list_ascii_of_string s) →
  Forall (λ p, Forall (λ c, is_space c = true) (list_ascii_of_string p))
         (split_comma s).
Proof.
  induction s as [|c s IH]; cbn [split_comma list_ascii_of_string].
  - intros _. repeat constructor.
  - intros Hs. apply Forall_cons in Hs as [Hc Hs]. specialize (IH Hs).
    destruct (Ascii.eqb c ",") eqn:Ec.
    + constructor; [constructor | exact IH].
    + destruct (split_comma s) as [|h t]; [repeat constructor|].
      * destruct Hc as [->|Hc]; [by rewrite Ascii.eqb_refl in Ec | exact Hc].
      * apply Forall_cons in IH as [Hh Ht]. constructor; [|exact Ht].
        cbn [list_ascii_of_string]. constructor; [|exact Hh].
        destruct Hc as [->|Hc]; [by rewrite Ascii.eqb_refl in Ec | exact Hc].
Qed.

(** A character that is not a blank survives [strip]. *)
Lemma lstrip_keeps l c : c ∈ l → is_space c = false → c ∈ lstrip l.
Proof.
  induction l as [|d l IH]; [done|]. intros Hin Hc. cbn [lstrip].
  destruct (is_space d) eqn:Ed; [|exact Hin].
  apply elem_of_cons in Hin as [->|Hin]; [congruence | by apply IH].
Qed.

Lemma strip_keeps s c :
  c ∈ list_ascii_of_string s → is_space c = false → nonempty (strip s) = true.
Proof.
  intros Hin Hc. unfold strip.
  assert (H2 : c ∈ rev (lstrip (rev (lstrip (list_ascii_of_string s))))).
  { apply list_elem_of_In, in_rev. rewrite rev_involutive.
    apply list_elem_of_In, lstrip_keeps; [|done].
    apply list_elem_of_In, in_rev. rewrite rev_involutive.
    by apply list_elem_of_In, lstrip_keeps. }
  destruct (rev _) as [|d l]; [by apply elem_of_nil in H2|done].
Qed.

(** Every character other than a comma lands in one of the pieces. *)
Lemma split_comma_covers s c :
  c ∈ list_ascii_of_string s → c ≠ ","%char →
  ∃ p, p ∈ split_comma s ∧ c ∈ list_ascii_of_string p.
Proof.
  induction s as [|d s IH]; cbn [split_comma list_ascii_of_string];
    [by intros ?%elem_of_nil|].
  intros Hin Hc. destruct (Ascii.eqb d ",") eqn:Ed.
  - apply Ascii.eqb_eq in Ed as ->.
    apply elem_of_cons in Hin as [->|Hin]; [done|].
    destruct (IH Hin Hc) as (p & Hp & Hcp). exists p. split; [|done].
    by apply list_elem_of_further.
  - destruct (split_comma_cons s) as (h & t & E). rewrite E in IH |- *.
    apply elem_of_cons in Hin as [->|Hin].
    + exists (String d h). split; [apply list_elem_of_here|].
      cbn. apply list_elem_of_here.
    + destruct (IH Hin Hc) as (p & Hp & Hcp).
      apply elem_of_cons in Hp as [->|Hp].
      * exists (String d h). split; [apply list_elem_of_here|].
        cbn. by apply list_elem_of_further.
      * exists p. split; [by apply list_elem_of_further | done].
Qed.

Lemma parse_symbols_nil s :
  parse_symbols s = [] ↔
  Forall (λ c, c = ","%char ∨ is_space c = true) (list_ascii_of_string s).
Proof.
  unfold parse_symbols. split.
  - intros E. apply Forall_forall. intros c Hin.
    destruct (Ascii.eqb c ",") eqn:Ec; [left; by apply Ascii.eqb_eq|].
    destruct (is_space c) eqn:Hc; [by right|]. exfalso.
    assert (Hne : c ≠ ","%char).
    { intros ->. by rewrite Ascii.eqb_refl in Ec. }
    destruct (split_comma_covers s c Hin Hne) as (p & Hp & Hcp).
    apply map_eq_nil in E.
    assert (Hf : p ∈ List.filter (λ s0, nonempty (strip s0)) (split_comma s)).
    { apply list_elem_of_In, filter_In. split; [by apply list_elem_of_In|].
      by eapply strip_keeps. }
    rewrite E in Hf. by apply elem_of_nil in Hf.
  - intros Hs. apply split_comma_blank in Hs.
    induction Hs as [|p l Hp _ IH]; [done|]. cbn [List.filter].
    rewrite (strip_spaces _ Hp). exact IH.
Qed.

(** The blanks of [str.strip] among the ASCII characters: tab, line feed,
    vertical tab, form feed, carriage return, the four separators 28-31 and
    the space. *)
Lemma is_space_chars c :
  is_space c
  = bool_decide (c ∈ [ "009"; "010"; "011"; "012"; "013";
                       "028"; "029"; "030"; "031"; " " ]%char).
Proof.
  destruct c as [[] [] [] [] [] [] [] []]; vm_compute; reflexivity.
Qed.

(** X23. Symbols as [fetch_live_quotes] parses them: none is empty and each
    is already in upper case, whatever the text entered.  ASCII text yields
    no symbol at all exactly when each of its characters is a comma or a
    blank, the blanks being tab, line feed, vertical tab, form feed,
    carriage return, the separators 28-31 and the space. *)
Theorem parsed_symbols_are_clean (symbols_input sym : string) :
  (sym ∈ parse_symbols symbols_input →
   sym ≠ EmptyString ∧ upper sym = sym) ∧
  ((∀ c, c ∈ list_ascii_of_string symbols_input → (nat_of_ascii c < 128)%nat) →
   (parse_symbols symbols_input = [] ↔
    ∀ c, c ∈ list_ascii_of_string symbols_input →
         c = ","%char ∨ is_space c = true)) ∧
  (∀ c, is_space c = true ↔
        c ∈ [ "009"; "010"; "011"; "012"; "013";
              "028"; "029"; "030"; "031"; " " ]%char) ∧
  parse_symbols " , ,, " = [] ∧
  parse_symbols (String "009" (String "," (String "010" (String "013" " "))))
  = [] ∧
  parse_symbols (String "009" (String "a" (String "027" (String "," " "))))
  = [String "A" (String "027" EmptyString)].
Proof.
  split; [|split; [|split; [|split; [|split]]]]; try reflexivity.
  - unfold parse_symbols. intros Hin.
    apply list_elem_of_In, in_map_iff in Hin as (raw & <- & Hraw).
    apply filter_In in Hraw as [_ Hne].
    split; [|apply upper_idem].
    intros E. rewrite <- upper_nonempty, E in Hne. done.
  - intros _. rewrite parse_symbols_nil. apply Forall_forall.
  - intros c. rewrite is_space_chars. apply bool_decide_eq_true.
Qed.

(** Witness of X22: a second start over the running reference ticker. *)
Lemma start_only_adds_tokens_witness :
  let s := sim_state (Some sim_online) ∅ in
  let o := start_websocket s (Some "key") (Some "token") (Some [260105]) in
  always_subscribed_tokens (final o)
  = always_subscribed_tokens s ∪ list_to_set (default [] (Some [260105])).
Proof.
  apply (start_only_adds_tokens (sim_state (Some sim_online) ∅)
           (Some "key") (Some "token") (Some [260105])); reflexivity.
Defined.

(** Witness of X23. *)
Lemma parsed_symbols_are_clean_witness :
  ("INFY" : string) ≠ EmptyString ∧ upper "INFY" = "INFY".
Proof.
  apply (parsed_symbols_are_clean " reliance, infy ,, " "INFY").
  apply (bool_decide_unpack _). vm_compute. exact I.
Defined.

End InputFacts.
